(** * Factor algebra of pgmpy: [pgmpy/factors/base.py]

    A shallow embedding of [factor_product], [factor_sum_product],
    [factor_log_sum] and [factor_divide], with the Python object store made
    explicit, followed by the properties of these four entry points. *)

From stdpp Require Import base option list strings gmap sets.

Local Open Scope nat_scope.

(** * Part I: the model *)

(** ** Scalars

    The cells of a factor are numbers.  The four entry points never look
    inside a cell: they hand the arithmetic to the factor class and to the
    contraction backend.  The arithmetic is therefore an interface. *)

Class Scalar (R : Type) := {
  s_zero : R;
  s_one : R;
  s_add : R → R → R;
  s_mul : R → R → R;
  s_div : R → R → R;
  s_log : R → R
}.

(** The two unit laws are all the algebra the development relies on. *)
Class ScalarLaws (R : Type) `{Scalar R} : Prop := {
  s_add_0_l : ∀ x : R, s_add s_zero x = x;
  s_mul_1_l : ∀ x : R, s_mul s_one x = x
}.

#[export] Instance Z_scalar : Scalar Z := {|
  s_zero := 0%Z; s_one := 1%Z;
  s_add := Z.add; s_mul := Z.mul; s_div := Z.div; s_log := Z.log2
|}.

(** ** Dense arrays

    A numpy array: its [shape] and its cells in row-major (C) order. *)

Record ndarray (R : Type) := NDArray { shape : list nat; data : list R }.
Arguments NDArray {R} _ _.
Arguments shape {R} _.
Arguments data {R} _.

(** [np.prod(shape)] *)
Definition prod_shape (sh : list nat) : nat := foldr Nat.mul 1 sh.

(** [np.ravel_multi_index(idx, shape)] : the row-major offset of a cell. *)
Fixpoint ravel_multi_index (idx sh : list nat) : nat :=
  match idx, sh with
  | i :: idx', _ :: sh' => i * prod_shape sh' + ravel_multi_index idx' sh'
  | _, _ => 0
  end.

(** [np.ndindex] over the shape : every multi-index, in row-major order. *)
Fixpoint ndindex (sh : list nat) : list (list nat) :=
  match sh with
  | [] => [[]]
  | d :: sh' => flat_map (λ i, (i ::.) <$> ndindex sh') (seq 0 d)
  end.

(** [idx] addresses a cell of an array of shape [sh]. *)
Definition in_bounds (idx sh : list nat) : Prop := Forall2 lt idx sh.

(** An assignment of a state index to each variable of [ls]; the
    dictionary [dict(zip(ls, idx))]. *)
Definition assignment (ls : list string) (idx : list nat) : gmap string nat :=
  list_to_map (zip ls idx).

(** The multi-index an assignment selects along the axes [ls]. *)
Definition at_assignment (ρ : gmap string nat) (ls : list string) : list nat :=
  (λ l, default 0 (ρ !! l)) <$> ls.

(** ** Python values *)

(** The exceptions that can leave the four entry points.  [SystemError]
    stands for a reference to no object, which no Python program holds. *)
Inductive exn : Type :=
| TypeError (msg : string)
| NotImplementedError (msg : string)
| KeyError (key : string)
| AttributeError (attr : string)
| ValueError (msg : string)
| SystemError.

(** A class object: its name, and whether [BaseFactor] is among its bases
    (what [isinstance(_, BaseFactor)] asks). *)
Record pytype := PyType { tp_name : string; tp_base_factor : bool }.

#[export] Instance pytype_eq_dec : EqDecision pytype.
Proof. solve_decision. Defined.

#[export] Instance pytype_countable : Countable pytype.
Proof.
  apply (inj_countable' (λ t, (tp_name t, tp_base_factor t))
                        (λ p, PyType p.1 p.2)).
  by intros [].
Defined.

(** [pgmpy.factors.discrete.DiscreteFactor] *)
Definition DiscreteFactor : pytype := PyType "DiscreteFactor" true.

(** The attributes of a factor object (section 3 of the specification). *)
Record factor_fields (R : Type) := Fields {
  variables : list string;
  cardinality : list nat;
  values : ndarray R;
  state_names : gmap string (list string)
}.
Arguments Fields {R} _ _ _ _.
Arguments variables {R} _.
Arguments cardinality {R} _.
Arguments values {R} _.
Arguments state_names {R} _.

(** An object of the store: its class and, when it has them, the factor
    attributes.  An object without them is any other Python value, or an
    instance of a [BaseFactor] subclass that implements nothing. *)
Record pyobj (R : Type) := PyObj {
  ob_type : pytype;
  ob_fields : option (factor_fields R)
}.
Arguments PyObj {R} _ _.
Arguments ob_type {R} _.
Arguments ob_fields {R} _.

(** References are positions in the store. *)
Definition loc : Type := nat.

(** The calls that do numeric work, in the order they are made. *)
Inductive event : Type :=
| CallCopy (phi : loc)
| CallLog (phi : loc)
| CallMul (phi1 phi2 : loc)
| CallAdd (phi1 phi2 : loc)
| CallDivide (phi1 phi2 : loc)
| CallContract.

Record state (R : Type) := State {
  heap : list (pyobj R);
  calls : list event
}.
Arguments State {R} _ _.
Arguments heap {R} _.
Arguments calls {R} _.

(** Computations that read and extend the store and may raise. *)
Definition py (R A : Type) : Type := state R → (exn + A) * state R.

#[export] Instance py_ret {R} : MRet (py R) := λ A a s, (inr a, s).

#[export] Instance py_bind {R} : MBind (py R) := λ A B k m s,
  match m s with
  | (inl e, s') => (inl e, s')
  | (inr a, s') => k a s'
  end.

Definition raise {R A} (e : exn) : py R A := λ s, (inl e, s).

Definition lift {R A} (r : exn + A) : py R A := λ s, (r, s).

Definition deref {R} (l : loc) : py R (pyobj R) := λ s,
  match heap s !! l with
  | Some o => (inr o, s)
  | None => (inl SystemError, s)
  end.

Definition alloc {R} (o : pyobj R) : py R loc := λ s,
  (inr (length (heap s)), State (heap s ++ [o]) (calls s)).

Definition emit {R} (ev : event) : py R unit := λ s,
  (inr (), State (heap s) (calls s ++ [ev])).

(** [type(phi)] *)
Definition type_of {R} (phi : loc) : py R pytype :=
  o ← deref phi; mret (ob_type o).

(** [isinstance(phi, BaseFactor)] *)
Definition isinstance_BaseFactor {R} (phi : loc) : py R bool :=
  o ← deref phi; mret (tp_base_factor (ob_type o)).

(** [phi.attr] for one of the factor attributes. *)
Definition getattr {R} (attr : string) (phi : loc) : py R (factor_fields R) :=
  o ← deref phi;
  match ob_fields o with
  | Some d => mret d
  | None => raise (AttributeError attr)
  end.

(** [all(f(phi) for phi in args)] : stops at the first [False]. *)
Fixpoint py_all {R} (f : loc → py R bool) (args : list loc) : py R bool :=
  match args with
  | [] => mret true
  | phi :: rest => f phi ≫= λ b : bool, if b then py_all f rest else mret false
  end.

Fixpoint foldlM {R A B} (f : A → B → py R A) (a : A) (l : list B) : py R A :=
  match l with
  | [] => mret a
  | x :: l' => a' ← f a x; foldlM f a' l'
  end.

(** [functools.reduce(f, args)] without an initial value. *)
Definition py_reduce {R} (f : loc → loc → py R loc) (args : list loc) : py R loc :=
  match args with
  | [] => raise (TypeError "reduce() of empty iterable with no initial value")
  | phi :: rest => foldlM f phi rest
  end.

(** [{var: state_names[var] for var in output_vars}] *)
Fixpoint dict_comp (names : gmap string (list string)) (vars : list string)
    (acc : gmap string (list string)) : exn + gmap string (list string) :=
  match vars with
  | [] => inr acc
  | v :: vars' =>
      match names !! v with
      | Some ns => dict_comp names vars' (<[v := ns]> acc)
      | None => inl (KeyError v)
      end
  end.

Section numeric.
Context {R : Type} `{Scalar R}.

(** [a[tuple(idx)]] *)
Definition nd_get (a : ndarray R) (idx : list nat) : R :=
  default s_zero (data a !! ravel_multi_index idx (shape a)).

(** The array of shape [sh] whose cell [idx] holds [f idx]. *)
Definition tabulate (sh : list nat) (f : list nat → R) : ndarray R :=
  NDArray sh (f <$> ndindex sh).

(** [a.size == np.prod(a.shape)] *)
Definition nd_ok (a : ndarray R) : Prop :=
  length (data a) = prod_shape (shape a).

(** [sum(xs)] and [math.prod(xs)], folded from the left like Python's. *)
Definition sum_list (xs : list R) : R := foldl s_add s_zero xs.
Definition prod_list (xs : list R) : R := foldl s_mul s_one xs.

(** ** Factors *)

(** The invariants of section 3 of the specification: one axis per
    variable, no variable twice, the array shaped by the cardinalities,
    state names for the variables of the scope and for no other, and one
    state name per state of each variable. *)
Definition factor_ok (d : factor_fields R) : Prop :=
  length (cardinality d) = length (variables d) ∧
  NoDup (variables d) ∧
  shape (values d) = cardinality d ∧
  nd_ok (values d) ∧
  dom (state_names d) = list_to_set (variables d) ∧
  Forall (λ p, length <$> state_names d !! p.1 = Some p.2)
         (zip (variables d) (cardinality d)).

#[export] Instance factor_ok_dec d : Decision (factor_ok d).
Proof. unfold factor_ok, nd_ok. apply _. Defined.

(** The cell of a factor that an assignment of its variables selects. *)
Definition factor_at (d : factor_fields R) (ρ : gmap string nat) : R :=
  nd_get (values d) (at_assignment ρ (variables d)).

(** The variable-to-cardinality pairs of a factor. *)
Definition card_items (d : factor_fields R) : list (string * nat) :=
  zip (variables d) (cardinality d).

(** [phi.get_cardinality([v])[v]], when [v] is in the scope. *)
Definition card_of (d : factor_fields R) (v : string) : option nat :=
  (list_to_map (card_items d) : gmap string nat) !! v.

(** Two factors give every variable they share the same cardinality. *)
Definition cards_agree (d1 d2 : factor_fields R) : Prop :=
  Forall (λ p, card_of d1 p.1 = None ∨ card_of d1 p.1 = Some p.2) (card_items d2).

#[export] Instance cards_agree_dec d1 d2 : Decision (cards_agree d1 d2).
Proof. unfold cards_agree. apply _. Defined.

(** Modelled from the spec: the binary operators of the factor class
    ([DiscreteFactor.__mul__], [__add__], [divide]) are defined in
    pgmpy/factors/discrete, not in base.py.  Section 4.3: the operands are
    aligned by shared variable identifiers, shared variables are broadcast
    against each other, the others pass through; the scope of the result is
    the union of the scopes in order of first appearance.  Section 3: an
    inconsistent cardinality of a shared variable is an error.  The state
    names are merged like [dict.update], the right operand last. *)
Definition factor_combine (op : R → R → R) (d1 d2 : factor_fields R)
    : exn + factor_fields R :=
  if decide (cards_agree d1 d2) then
    let extra := filter (λ p, p.1 ∉ variables d1) (card_items d2) in
    let vars := variables d1 ++ extra.*1 in
    let card := cardinality d1 ++ extra.*2 in
    inr (Fields vars card
           (tabulate card (λ idx,
              let ρ := assignment vars idx in
              op (factor_at d1 ρ) (factor_at d2 ρ)))
           (state_names d2 ∪ state_names d1))
  else inl (ValueError "operands could not be broadcast together").

(** Modelled from the spec: [DiscreteFactor.divide] (section 4.5) is
    defined when the scope of the divisor is contained in the scope of the
    dividend, and is then the aligned cell-wise quotient over the scope of
    the dividend.  Outside of that case the specification leaves the
    behaviour to the operator; the model raises. *)
Definition factor_quotient (d1 d2 : factor_fields R) : exn + factor_fields R :=
  if decide (variables d2 ⊆ variables d1) then factor_combine s_div d1 d2
  else inl (ValueError "Scope of divisor should be a subset of dividend").

(** Modelled from the spec: [DiscreteFactor.log] (section 4.1) maps the
    logarithm over the cells. *)
Definition log_fields (d : factor_fields R) : factor_fields R :=
  Fields (variables d) (cardinality d)
         (NDArray (shape (values d)) (s_log <$> data (values d)))
         (state_names d).

(** Modelled from the spec: [phi.copy()] (section 4.1, a deep copy) is a
    method of the factor class, not of base.py.  It makes a new object of
    the class of [phi] with the attributes of [phi]. *)
Definition method_copy (phi : loc) : py R loc :=
  emit (CallCopy phi);;
  o ← deref phi;
  match ob_fields o with
  | Some d => alloc (PyObj (ob_type o) (Some d))
  | None => raise (AttributeError "copy")
  end.

(** Modelled from the spec: [phi.log(inplace=False)] (sections 4.1 and
    4.6) returns a new object and leaves [phi] as it is. *)
Definition method_log (phi : loc) : py R loc :=
  emit (CallLog phi);;
  o ← deref phi;
  match ob_fields o with
  | Some d => alloc (PyObj (ob_type o) (Some (log_fields d)))
  | None => raise (AttributeError "log")
  end.

(** Modelled from the spec: a binary operator of the factor class
    (section 4.1) reads its two operands and returns a new object of the
    class of the left one; on an operand without the factor attributes
    Python finds no such operator. *)
Definition method_binary (ev : event) (sym : string)
    (f : factor_fields R → factor_fields R → exn + factor_fields R)
    (phi1 phi2 : loc) : py R loc :=
  emit ev;;
  o1 ← deref phi1;
  o2 ← deref phi2;
  match ob_fields o1, ob_fields o2 with
  | Some d1, Some d2 =>
      d ← lift (f d1 d2);
      alloc (PyObj (ob_type o1) (Some d))
  | _, _ => raise (TypeError ("unsupported operand type(s) for " +:+ sym))
  end.

(** Modelled from the spec: [phi1 * phi2] (section 4.3). *)
Definition method_mul (phi1 phi2 : loc) : py R loc :=
  method_binary (CallMul phi1 phi2) "*" (factor_combine s_mul) phi1 phi2.

(** Modelled from the spec: [phi1 + phi2] (section 4.6: aligned exactly as
    in product, with addition for multiplication). *)
Definition method_add (phi1 phi2 : loc) : py R loc :=
  method_binary (CallAdd phi1 phi2) "+" (factor_combine s_add) phi1 phi2.

(** Modelled from the spec: [phi1.divide(phi2, inplace=False)] (section
    4.5) returns a new object. *)
Definition method_divide (phi1 phi2 : loc) : py R loc :=
  emit (CallDivide phi1 phi2);;
  o1 ← deref phi1;
  o2 ← deref phi2;
  match ob_fields o1 with
  | Some d1 =>
      match ob_fields o2 with
      | Some d2 =>
          d ← lift (factor_quotient d1 d2);
          alloc (PyObj (ob_type o1) (Some d))
      | None => raise (AttributeError "variables")
      end
  | None => raise (AttributeError "divide")
  end.

(** Modelled from the spec: the constructor of [DiscreteFactor] is defined
    in pgmpy/factors/discrete.  Section 4.4, step 4: a new factor over the
    given variables, with the given cardinality, values and state names.
    The values are reshaped to the cardinality, and arguments that break the
    invariants of section 3 are refused. *)
Definition DiscreteFactor_init (vars : list string) (card : list nat)
    (vals : ndarray R) (names : gmap string (list string)) : py R loc :=
  let d := Fields vars card (NDArray card (data vals)) names in
  if decide (factor_ok d) then alloc (PyObj DiscreteFactor (Some d))
  else raise (ValueError "arguments do not describe a factor").

(** ** base.py *)

(** [factor_product], lines 21-76. *)
Definition factor_product (args : list loc) : py R loc :=
  py_all isinstance_BaseFactor args ≫= λ all_factors : bool,
  if negb all_factors then raise (TypeError "Arguments must be factors")
  else
    types ← mapM type_of args;
    if negb (bool_decide (size (list_to_set types : gset pytype) = 1)) then
      raise (NotImplementedError
        "All the args are expected to be instances of the same factor class.")
    else
      match args with
      | [phi] => method_copy phi
      | _ => py_reduce method_mul args
      end.

(** [factor_log_sum], lines 124-138. *)
Definition factor_log_sum (args : list loc) : py R loc :=
  py_all isinstance_BaseFactor args ≫= λ all_factors : bool,
  if negb all_factors then raise (TypeError "Arguments must be log factors")
  else
    types ← mapM type_of args;
    if negb (bool_decide (size (list_to_set types : gset pytype) = 1)) then
      raise (NotImplementedError
        "All the args are expected to be instances of the same factor class.")
    else
      log_args ← mapM method_log args;
      match log_args with
      | [phi] => method_copy phi
      | _ => py_reduce method_add log_args
      end.

(** [factor_divide(phi1, phi2)], lines 141-186.  The [or] of line 177 does
    not look at [phi2] when [phi1] is not a factor. *)
Definition factor_divide (phi1 phi2 : loc) : py R loc :=
  isinstance_BaseFactor phi1 ≫= λ b1 : bool,
  (if b1 then isinstance_BaseFactor phi2 else mret false) ≫= λ b2 : bool,
  if negb (b1 && b2) then raise (TypeError "phi1 and phi2 should be factors instances")
  else
    t1 ← type_of phi1;
    t2 ← type_of phi2;
    if negb (bool_decide (t1 = t2)) then
      raise (NotImplementedError
        "All the args are expected to be instances of the same factor class.")
    else method_divide phi1 phi2.

End numeric.

(** ** The contraction backend *)

Section backend.
Context {R : Type} `{Scalar R}.

(** [opt_einsum.contract] is called in its interleaved form: each operand
    is an array with the labels of its axes. *)
Definition operand : Type := ndarray R * list string.

(** The library is not part of base.py: the calls go through an
    interface, and what section 6 of the specification promises of it is
    [BackendSpec] below. *)
Class Backend := contract : list operand → list string → exn + ndarray R.

(** Every label with the length of an axis that carries it. *)
Definition label_dims (ops : list operand) : list (string * nat) :=
  ops ≫= λ p, zip p.2 (shape p.1).

(** The length of the axes labelled [l]. *)
Definition label_dim (ops : list operand) (l : string) : nat :=
  default 0 ((list_to_map (label_dims ops) : gmap string nat) !! l).

Definition labels (ops : list operand) : list string :=
  remove_dups (ops ≫= snd).

(** The labels that are summed out. *)
Definition summed_labels (ops : list operand) (out : list string) : list string :=
  filter (λ l, l ∉ out) (labels ops).

(** Modelled from the spec: section 6, the named contraction, simultaneous
    multiply-then-sum-out-of-scope: the cell of the result at an index of
    the output labels is the sum, over the indices of the other labels, of
    the product of the operands' cells. *)
Definition named_contraction (ops : list operand) (out : list string) : ndarray R :=
  let inner := summed_labels ops out in
  tabulate (label_dim ops <$> out) (λ oi,
    sum_list ((λ si,
        let ρ := assignment (out ++ inner) (oi ++ si) in
        prod_list ((λ p : operand, nd_get p.1 (at_assignment ρ p.2)) <$> ops))
      <$> ndindex (label_dim ops <$> inner))).

(** A well-formed operand list: each array has one axis per label and as
    many cells as its shape says, no operand repeats a label, and all axes
    with one label have one length. *)
Definition operand_ok (p : operand) : Prop :=
  nd_ok p.1 ∧ length (shape p.1) = length p.2 ∧ NoDup p.2.

Definition operands_ok (ops : list operand) : Prop :=
  Forall operand_ok ops ∧
  Forall (λ q, label_dim ops q.1 = q.2) (label_dims ops).

#[export] Instance operands_ok_dec ops : Decision (operands_ok ops).
Proof. unfold operands_ok, operand_ok, nd_ok. apply _. Defined.

(** Section 6 of the specification, as far as base.py relies on it: on at
    least one operand, well formed, and distinct output labels that all
    occur in the operands, the backend returns the named contraction. *)
Class BackendSpec `{Backend} : Prop :=
  contract_spec : ∀ ops out,
    ops ≠ [] → operands_ok ops → NoDup out → out ⊆ labels ops →
    contract ops out = inr (named_contraction ops out).

(** Modelled from the spec: a backend as section 6 describes it.  It
    checks its arguments, raises on a mismatch of labels or cardinalities,
    and otherwise evaluates the contraction as defined.  Section 6 is
    silent on a call without operands; this backend refuses it. *)
Definition reference_contract (ops : list operand) (out : list string)
    : exn + ndarray R :=
  match ops with
  | [] => inl (ValueError "No input operands")
  | _ :: _ =>
      if decide (operands_ok ops ∧ NoDup out ∧ out ⊆ labels ops)
      then inr (named_contraction ops out)
      else inl (ValueError "invalid contraction")
  end.

(** A backend that evaluates the contraction without looking at its
    arguments first: with it one sees what base.py itself does when the
    contraction returns. *)
Definition lenient_contract (ops : list operand) (out : list string)
    : exn + ndarray R :=
  inr (named_contraction ops out).

End backend.

Arguments operand R : clear implicits.
Arguments Backend R : clear implicits.
Arguments BackendSpec R {_ _}.

Section sum_product.
Context {R : Type} `{Scalar R} `{Backend R}.

(** [factor_sum_product(output_vars, factors)], lines 79-121. *)
Definition factor_sum_product (output_vars : list string) (factors : list loc)
    : py R loc :=
  names ← foldlM (λ acc phi, d ← getattr "state_names" phi;
                             mret (state_names d ∪ acc)) ∅ factors;
  einsum_expr ← mapM (λ phi, d ← getattr "values" phi;
                             d' ← getattr "variables" phi;
                             mret (values d, variables d')) factors;
  emit CallContract;;
  vals ← lift (contract einsum_expr output_vars);
  names' ← lift (dict_comp names output_vars ∅);
  DiscreteFactor_init output_vars (shape vals) vals names'.

End sum_product.

(** ** What the specification says a joint sum-product is *)

Section marginal.
Context {R : Type} `{Scalar R}.

(** The pointwise product of a list of factors, at an assignment. *)
Definition joint (ds : list (factor_fields R)) (ρ : gmap string nat) : R :=
  prod_list ((λ d, factor_at d ρ) <$> ds).

(** The variables of the factors that are not kept. *)
Definition hidden_vars (out : list string) (ds : list (factor_fields R))
    : list string :=
  filter (λ v, v ∉ out) (remove_dups (ds ≫= variables)).

(** The cardinality the factors give to a variable. *)
Definition card_in (ds : list (factor_fields R)) (v : string) : nat :=
  default 0 ((list_to_map (ds ≫= card_items) : gmap string nat) !! v).

(** The sum, over all assignments to the variables not in [out], of the
    pointwise product of the factors. *)
Definition marginal (out : list string) (ds : list (factor_fields R))
    (oi : list nat) : R :=
  let hid := hidden_vars out ds in
  sum_list ((λ si, joint ds (assignment (out ++ hid) (oi ++ si)))
            <$> ndindex (card_in ds <$> hid)).

(** The marginal of a two-axis table on its first axis, summing the cells
    of each row: what one computes by hand from [n] rows of [m] cells. *)
Definition row_sums (n m : nat) (cells : list R) : list R :=
  (λ a, sum_list ((λ b, default s_zero (cells !! (a * m + b))) <$> seq 0 m))
  <$> seq 0 n.

(** The factors agree on the cardinality of every variable. *)
Definition cards_consistent (ds : list (factor_fields R)) : Prop :=
  Forall (λ q, card_in ds q.1 = q.2) (ds ≫= card_items).

End marginal.

(** ** The type-homogeneity guard, as the specification words it *)

(** Section 4.2: every operand satisfies the factor contract, else a type
    error; all operands share exactly one concrete type, else an
    unsupported-combination error; [None] when the operands pass. *)
Definition homogeneity_guard (msg : string) (types : list pytype) : option exn :=
  if decide (Exists (λ t, tp_base_factor t = false) types) then
    Some (TypeError msg)
  else
    match types with
    | t :: rest =>
        if decide (Forall (λ t', t' = t) rest) then None
        else Some (NotImplementedError
          "All the args are expected to be instances of the same factor class.")
    | [] => Some (NotImplementedError
          "All the args are expected to be instances of the same factor class.")
    end.

(** ** Arguments in the store *)

(** The references [args] point to the objects [objs]. *)
Definition refs {R} (s : state R) (args : list loc) (objs : list (pyobj R)) : Prop :=
  Forall2 (λ l o, heap s !! l = Some o) args objs.

(** The objects [objs] carry the factor attributes [ds]. *)
Definition have_fields {R} (objs : list (pyobj R)) (ds : list (factor_fields R)) : Prop :=
  Forall2 (λ o d, ob_fields o = Some d) objs ds.

(** [state_names.update(phi.state_names)] over the factors, from [{}]. *)
Definition merge_names {R} (ds : list (factor_fields R)) : gmap string (list string) :=
  foldl (λ acc d, state_names d ∪ acc) ∅ ds.

(** The operands handed to the backend: [phi.values, phi.variables]. *)
Definition einsum_expr_of {R} (ds : list (factor_fields R)) : list (operand R) :=
  (λ d, (values d, variables d)) <$> ds.

(** [functools.reduce] of a binary factor operator over attribute records. *)
Definition reduce_fields {R} (f : factor_fields R → factor_fields R → exn + factor_fields R)
    (d : factor_fields R) (ds : list (factor_fields R)) : exn + factor_fields R :=
  foldl (λ acc d', match acc with inr a => f a d' | inl e => inl e end) (inr d) ds.

(** The factors take the cardinality of each of their variables from [c]. *)
Definition cards_from {R} (c : string → nat) (d : factor_fields R) : Prop :=
  cardinality d = c <$> variables d.

(** The union of scopes in order of first appearance (section 4.3),
    starting from the scope [vs]. *)
Definition scope_union {R} (vs : list string) (ds : list (factor_fields R))
    : list string :=
  foldl (λ acc d, acc ++ filter (λ v, v ∉ acc) (variables d)) vs ds.

(** ** A small store, for the examples

    Integer cells stand in for numbers.  [phi_AB] is a table over [A] and
    [B]; [phi_B] and [phi_B'] are tables over [B] that name its states
    differently; the store also holds a factor of another class, an object
    that is no factor but has the attributes of one, and a plain object. *)

Definition phi_AB : factor_fields Z :=
  Fields ["A"; "B"] [2; 3] (NDArray [2; 3] [1; 2; 3; 4; 5; 6]%Z)
         (list_to_map [("A", ["a0"; "a1"]); ("B", ["b0"; "b1"; "b2"])]).

Definition phi_B : factor_fields Z :=
  Fields ["B"] [3] (NDArray [3] [10; 20; 30]%Z)
         (list_to_map [("B", ["low"; "mid"; "high"])]).

Definition phi_B' : factor_fields Z :=
  Fields ["B"] [3] (NDArray [3] [1; 1; 2]%Z)
         (list_to_map [("B", ["b0"; "b1"; "b2"])]).

Definition SparseFactor : pytype := PyType "SparseFactor" true.
Definition Table : pytype := PyType "Table" false.

Definition store : state Z :=
  State [PyObj DiscreteFactor (Some phi_AB);
         PyObj DiscreteFactor (Some phi_B);
         PyObj DiscreteFactor (Some phi_B');
         PyObj SparseFactor (Some phi_B');
         PyObj Table (Some phi_B');
         PyObj (PyType "NoneType" false) None] [].

#[export] Instance reference_backend : Backend Z := reference_contract.

(** The factors of the docstrings of [factor_product] (lines 38-39) and
    [factor_divide] (lines 161-162), with the state names a
    [DiscreteFactor] gets by default.  The dividend is scaled by 12 so that
    the quotients of the docstring stay integers. *)
Definition default_names (vars : list string) (card : list nat)
    : gmap string (list string) :=
  list_to_map (zip_with (λ v c, (v, (λ i, String.string_of_list_ascii
                                            [Ascii.ascii_of_nat (48 + i)])
                                     <$> seq 0 c)) vars card).

Definition doc_phi1 : factor_fields Z :=
  Fields ["x1"; "x2"; "x3"] [2; 3; 2]
         (NDArray [2; 3; 2] (Z.of_nat <$> seq 0 12))
         (default_names ["x1"; "x2"; "x3"] [2; 3; 2]).

Definition doc_phi2 : factor_fields Z :=
  Fields ["x3"; "x4"; "x1"] [2; 2; 2]
         (NDArray [2; 2; 2] (Z.of_nat <$> seq 0 8))
         (default_names ["x3"; "x4"; "x1"] [2; 2; 2]).

Definition doc_dividend : factor_fields Z :=
  Fields ["x1"; "x2"; "x3"] [2; 3; 2]
         (NDArray [2; 3; 2] ((λ i, 12 * Z.of_nat i)%Z <$> seq 0 12))
         (default_names ["x1"; "x2"; "x3"] [2; 3; 2]).

Definition doc_divisor : factor_fields Z :=
  Fields ["x3"; "x1"] [2; 2] (NDArray [2; 2] [1; 2; 3; 4]%Z)
         (default_names ["x3"; "x1"] [2; 2]).

Definition doc_store : state Z :=
  State [PyObj DiscreteFactor (Some doc_phi1);
         PyObj DiscreteFactor (Some doc_phi2);
         PyObj DiscreteFactor (Some doc_dividend);
         PyObj DiscreteFactor (Some doc_divisor)] [].

(** ** The class [BaseFactor], lines 8-18

    [BaseFactor] derives from [object] with no metaclass, so that it can be
    instantiated although [is_valid_cpd] is marked abstract; its
    [__init__] does nothing.  An instance has none of the factor
    attributes, and the class defines no [copy], [log], [divide], [*] or
    [+]. *)
Definition BaseFactor : pytype := PyType "BaseFactor" true.

(** [BaseFactor(...)] : a new object of the class, without attributes. *)
Definition BaseFactor_init {R} : py R loc := alloc (PyObj BaseFactor None).

(** The factors give one list of state names to each variable they
    share. *)
Definition names_consistent {R} (ds : list (factor_fields R)) : Prop :=
  ∀ d1 d2 v ns1 ns2, d1 ∈ ds → d2 ∈ ds →
    state_names d1 !! v = Some ns1 → state_names d2 !! v = Some ns2 → ns1 = ns2.


(** * Part II: properties *)

(** ** Arrays *)

Lemma flat_map_blocks {A} (f : nat → list A) (p : nat) :
  (∀ j, length (f j) = p) →
  ∀ d start i r, i < d → r < p →
    flat_map f (seq start d) !! (i * p + r) = f (start + i) !! r.
Proof.
  intros Hlen. induction d as [|d IH]; intros start i r Hi Hr; [lia|].
  simpl. destruct i as [|i].
  - rewrite Nat.add_0_r. simpl. apply lookup_app_l. rewrite Hlen. done.
  - rewrite lookup_app_r by (rewrite Hlen; simpl; lia).
    rewrite Hlen. replace (S i * p + r - p) with (i * p + r) by (simpl; lia).
    rewrite IH by lia. f_equal. f_equal. lia.
Qed.

Lemma length_flat_map_blocks {A} (f : nat → list A) (p : nat) :
  (∀ j, length (f j) = p) →
  ∀ d start, length (flat_map f (seq start d)) = d * p.
Proof.
  intros Hlen. induction d as [|d IH]; intros start; [done|].
  simpl. rewrite length_app, Hlen, IH. done.
Qed.

Lemma length_ndindex sh : length (ndindex sh) = prod_shape sh.
Proof.
  induction sh as [|d sh IH]; [done|]. simpl.
  apply length_flat_map_blocks. intros j. by rewrite length_fmap.
Qed.

Lemma ravel_lt idx sh : in_bounds idx sh → ravel_multi_index idx sh < prod_shape sh.
Proof.
  induction 1 as [|i d idx sh Hid _ IH]; simpl; [lia|].
  fold (prod_shape sh). nia.
Qed.

Lemma ndindex_lookup idx sh :
  in_bounds idx sh → ndindex sh !! ravel_multi_index idx sh = Some idx.
Proof.
  induction 1 as [|i d idx sh Hid Hb IH]; [done|]. simpl.
  rewrite (flat_map_blocks _ (prod_shape sh)); try done.
  - rewrite list_lookup_fmap, IH. done.
  - intros j. by rewrite length_fmap, length_ndindex.
  - by apply ravel_lt.
Qed.

Lemma elem_of_ndindex idx sh : idx ∈ ndindex sh ↔ in_bounds idx sh.
Proof.
  split.
  - revert idx. induction sh as [|d sh IH]; intros idx; simpl.
    + intros ->%list_elem_of_singleton. constructor.
    + rewrite list_elem_of_In, in_flat_map.
      intros (i & Hi%in_seq & Hin%list_elem_of_In).
      apply list_elem_of_fmap in Hin as (idx' & -> & Hidx').
      constructor; [lia | by apply IH].
  - intros Hb. eapply list_elem_of_lookup_2, ndindex_lookup, Hb.
Qed.

Section array_facts.
Context {R : Type} `{Scalar R}.

Lemma nd_get_tabulate sh (f : list nat → R) idx :
  in_bounds idx sh → nd_get (tabulate sh f) idx = f idx.
Proof.
  intros Hb. unfold nd_get, tabulate. simpl.
  by rewrite list_lookup_fmap, ndindex_lookup.
Qed.

Lemma tabulate_ok sh (f : list nat → R) : nd_ok (tabulate sh f).
Proof. unfold nd_ok, tabulate. simpl. by rewrite length_fmap, length_ndindex. Qed.

Lemma tabulate_ext sh (f g : list nat → R) :
  (∀ idx, in_bounds idx sh → f idx = g idx) → tabulate sh f = tabulate sh g.
Proof.
  intros Hfg. unfold tabulate. f_equal.
  apply list_fmap_ext. intros i idx Hi. apply Hfg, elem_of_ndindex.
  by eapply list_elem_of_lookup_2.
Qed.

End array_facts.

(** ** Running computations *)

Section run.
Context {R : Type}.

Lemma run_bind {A B} (m : py R A) (k : A → py R B) (s : state R) :
  (m ≫= k) s = match m s with
               | (inl e, s') => (inl e, s')
               | (inr a, s') => k a s'
               end.
Proof. done. Qed.

Lemma run_ret {A} (a : A) (s : state R) : mret (M := py R) a s = (inr a, s).
Proof. done. Qed.

Lemma run_deref (s : state R) l o :
  heap s !! l = Some o → deref l s = (inr o, s).
Proof. intros Hl. unfold deref. by rewrite Hl. Qed.

Lemma run_type_of (s : state R) l o :
  heap s !! l = Some o → type_of l s = (inr (ob_type o), s).
Proof. intros Hl. unfold type_of. by rewrite run_bind, (run_deref _ _ _ Hl). Qed.

Lemma run_isinstance (s : state R) l o :
  heap s !! l = Some o →
  isinstance_BaseFactor l s = (inr (tp_base_factor (ob_type o)), s).
Proof.
  intros Hl. unfold isinstance_BaseFactor.
  by rewrite run_bind, (run_deref _ _ _ Hl).
Qed.

Lemma run_getattr (s : state R) attr l o d :
  heap s !! l = Some o → ob_fields o = Some d →
  getattr attr l s = (inr d, s).
Proof.
  intros Hl Hd. unfold getattr.
  by rewrite run_bind, (run_deref _ _ _ Hl), Hd.
Qed.

Lemma run_py_all (s : state R) args objs :
  refs s args objs →
  py_all isinstance_BaseFactor args s
  = (inr (forallb (λ o, tp_base_factor (ob_type o)) objs), s).
Proof.
  induction 1 as [|l o args objs Hl _ IH]; [done|].
  simpl. rewrite run_bind, (run_isinstance _ _ _ Hl).
  destruct (tp_base_factor (ob_type o)); [apply IH | done].
Qed.

Lemma run_types (s : state R) args objs :
  refs s args objs → mapM type_of args s = (inr (ob_type <$> objs), s).
Proof.
  induction 1 as [|l o args objs Hl _ IH]; [done|].
  simpl. rewrite run_bind, (run_type_of _ _ _ Hl).
  by rewrite run_bind, IH.
Qed.

End run.

(** ** The guard *)

Lemma forallb_base_factor {R} (objs : list (pyobj R)) :
  forallb (λ o, tp_base_factor (ob_type o)) objs = false
  ↔ Exists (λ t, tp_base_factor t = false) (ob_type <$> objs).
Proof.
  induction objs as [|o objs IH]; simpl.
  - split; [done | by intros ?%Exists_nil].
  - rewrite Exists_cons, andb_false_iff, IH. done.
Qed.

Lemma types_size_one (types : list pytype) :
  size (list_to_set types : gset pytype) = 1
  ↔ match types with
    | t :: rest => Forall (λ t', t' = t) rest
    | [] => False
    end.
Proof.
  destruct types as [|t rest].
  - rewrite list_to_set_nil, size_empty. split; [lia | done].
  - rewrite list_to_set_cons. split.
    + intros (x & Hx)%size_1_elem_of. apply Forall_forall. intros t' Ht'.
      assert (t ∈ ({[x]} : gset pytype)) as Ht.
      { apply Hx, elem_of_union_l, elem_of_singleton. done. }
      assert (t' ∈ ({[x]} : gset pytype)) as Ht''.
      { apply Hx, elem_of_union_r, elem_of_list_to_set. done. }
      apply elem_of_singleton in Ht, Ht''. congruence.
    + intros Hall.
      assert (({[t]} ∪ list_to_set rest : gset pytype) = {[t]}) as ->.
      { apply set_eq. intros x.
        rewrite elem_of_union, elem_of_list_to_set, elem_of_singleton.
        split; [|by left]. intros [Hx|Hx]; [done|].
        by apply (proj1 (Forall_forall _ _) Hall). }
      apply size_singleton.
Qed.

(** The two tests of lines 65-71, read off the types of the operands, are
    the guard of section 4.2. *)
Lemma guard_tests (msg : string) {R} (objs : list (pyobj R)) :
  (if negb (forallb (λ o, tp_base_factor (ob_type o)) objs)
   then Some (TypeError msg)
   else if negb (bool_decide
                   (size (list_to_set (ob_type <$> objs) : gset pytype) = 1))
        then Some (NotImplementedError
          "All the args are expected to be instances of the same factor class.")
        else None)
  = homogeneity_guard msg (ob_type <$> objs).
Proof.
  unfold homogeneity_guard.
  destruct (forallb _ objs) eqn:Hall; simpl.
  - rewrite decide_False; last first.
    { rewrite <- forallb_base_factor. by rewrite Hall. }
    case_bool_decide as Hsz; simpl; rewrite types_size_one in Hsz.
    + destruct (ob_type <$> objs); [done|]. by rewrite decide_True.
    + destruct (ob_type <$> objs); [done|]. by rewrite decide_False.
  - rewrite decide_True; [done|]. by apply forallb_base_factor.
Qed.

Lemma guard_invalid (msg : string) (types : list pytype) :
  Exists (λ t, tp_base_factor t = false) types →
  homogeneity_guard msg types = Some (TypeError msg).
Proof. intros Hex. unfold homogeneity_guard. by rewrite decide_True. Qed.

Lemma guard_mixed (msg : string) (types : list pytype) :
  Forall (λ t, tp_base_factor t = true) types →
  (∃ t1 t2, t1 ∈ types ∧ t2 ∈ types ∧ t1 ≠ t2) →
  homogeneity_guard msg types
  = Some (NotImplementedError
      "All the args are expected to be instances of the same factor class.").
Proof.
  intros Hall (t1 & t2 & Ht1 & Ht2 & Hne). unfold homogeneity_guard.
  rewrite decide_False; last first.
  { rewrite Exists_exists. intros (t & Ht & Hf).
    rewrite Forall_forall in Hall. specialize (Hall t Ht). congruence. }
  destruct types as [|t rest]; [done|].
  rewrite decide_False; [done|]. intros Hrest. rewrite Forall_forall in Hrest.
  apply Hne. transitivity t.
  - apply elem_of_cons in Ht1 as [->|Ht1]; [done | by apply Hrest].
  - apply elem_of_cons in Ht2 as [->|Ht2]; [done | symmetry; by apply Hrest].
Qed.

Lemma guard_passes (msg : string) (t : pytype) (types : list pytype) :
  types ≠ [] → tp_base_factor t = true → Forall (λ t', t' = t) types →
  homogeneity_guard msg types = None.
Proof.
  intros Hne Ht Hall. unfold homogeneity_guard.
  rewrite decide_False; last first.
  { rewrite Exists_exists. intros (t' & Ht' & Hf).
    rewrite Forall_forall in Hall. rewrite (Hall t' Ht') in Hf. congruence. }
  destruct types as [|t0 rest]; [done|].
  apply Forall_cons in Hall as [-> Hall]. by rewrite decide_True.
Qed.

Section guarded.
Context {R : Type} `{Scalar R}.

Lemma factor_product_guarded (s : state R) args objs :
  refs s args objs →
  factor_product args s
  = match homogeneity_guard "Arguments must be factors" (ob_type <$> objs) with
    | Some e => (inl e, s)
    | None => match args with
              | [phi] => method_copy phi s
              | _ => py_reduce method_mul args s
              end
    end.
Proof.
  intros Hrefs. rewrite <- guard_tests. unfold factor_product.
  rewrite run_bind, (run_py_all _ _ _ Hrefs).
  destruct (forallb _ objs); simpl; [|done].
  rewrite run_bind, (run_types _ _ _ Hrefs).
  destruct (bool_decide _); simpl; [|done].
  by destruct args as [|? [|? ?]].
Qed.

Lemma factor_log_sum_guarded (s : state R) args objs :
  refs s args objs →
  factor_log_sum args s
  = match homogeneity_guard "Arguments must be log factors" (ob_type <$> objs) with
    | Some e => (inl e, s)
    | None => (log_args ← mapM method_log args;
               match log_args with
               | [phi] => method_copy phi
               | _ => py_reduce method_add log_args
               end) s
    end.
Proof.
  intros Hrefs. rewrite <- guard_tests. unfold factor_log_sum.
  rewrite run_bind, (run_py_all _ _ _ Hrefs).
  destruct (forallb _ objs); simpl; [|done].
  rewrite run_bind, (run_types _ _ _ Hrefs).
  by destruct (bool_decide _).
Qed.

Lemma factor_divide_guarded (s : state R) phi1 phi2 o1 o2 :
  heap s !! phi1 = Some o1 → heap s !! phi2 = Some o2 →
  factor_divide phi1 phi2 s
  = match homogeneity_guard "phi1 and phi2 should be factors instances"
            [ob_type o1; ob_type o2] with
    | Some e => (inl e, s)
    | None => method_divide phi1 phi2 s
    end.
Proof.
  intros H1 H2. unfold factor_divide, homogeneity_guard.
  rewrite run_bind, (run_isinstance _ _ _ H1).
  destruct (tp_base_factor (ob_type o1)) eqn:Hb1.
  - rewrite run_bind, (run_isinstance _ _ _ H2).
    destruct (tp_base_factor (ob_type o2)) eqn:Hb2; simpl.
    + rewrite decide_False; last first.
      { intros Hex. apply Exists_cons in Hex as [?|Hex]; [congruence|].
        apply Exists_cons in Hex as [?|Hex]; [congruence|].
        by apply Exists_nil in Hex. }
      rewrite run_bind, (run_type_of _ _ _ H1).
      rewrite run_bind, (run_type_of _ _ _ H2).
      case_bool_decide as Heq; simpl.
      * rewrite decide_True; [done|]. by repeat constructor.
      * rewrite decide_False; [done|]. by intros [? _]%Forall_cons.
    + rewrite decide_True; [done|]. rewrite !Exists_cons. auto.
  - rewrite run_bind, run_ret. simpl.
    rewrite decide_True; [done|]. rewrite !Exists_cons. auto.
Qed.

End guarded.

(** ** Rejection by the guard *)

Section rejection.
Context {R : Type} `{Scalar R}.

(** C10.  With no operand at all, [factor_product] and [factor_log_sum]
    raise the unsupported-combination error, in an unchanged store: the
    test of each operand is vacuously true, and the set of the operands'
    types is empty, so its size is not one.  Neither a type error nor the
    error of a reduction over nothing is seen. *)
Theorem zero_operands_unsupported (s : state R) :
  py_all isinstance_BaseFactor [] s = (inr true, s) ∧
  size (list_to_set (@nil pytype) : gset pytype) = 0 ∧
  factor_product [] s
  = (inl (NotImplementedError
       "All the args are expected to be instances of the same factor class."), s) ∧
  factor_log_sum [] s
  = (inl (NotImplementedError
       "All the args are expected to be instances of the same factor class."), s).
Proof.
  split; [done|]. split; [by rewrite list_to_set_nil, size_empty|].
  assert (refs s [] []) as Hrefs by constructor.
  rewrite (factor_product_guarded _ _ _ Hrefs).
  rewrite (factor_log_sum_guarded _ _ _ Hrefs). done.
Qed.

(** C7.  [factor_product], [factor_log_sum] and [factor_divide] raise the
    invalid-argument-type error when some operand is not an instance of
    [BaseFactor], and the unsupported-combination error when all are but
    two of them are of different classes.  The store comes back as it was:
    no copy, logarithm, product or quotient has been made. *)
Theorem type_guards_reject (s : state R) (args : list loc) (objs : list (pyobj R)) :
  refs s args objs →
  (Exists (λ o, tp_base_factor (ob_type o) = false) objs →
     factor_product args s
     = (inl (TypeError "Arguments must be factors"), s) ∧
     factor_log_sum args s
     = (inl (TypeError "Arguments must be log factors"), s) ∧
     ∀ phi1 phi2, args = [phi1; phi2] →
       factor_divide phi1 phi2 s
       = (inl (TypeError "phi1 and phi2 should be factors instances"), s)) ∧
  (Forall (λ o, tp_base_factor (ob_type o) = true) objs →
   (∃ o1 o2, o1 ∈ objs ∧ o2 ∈ objs ∧ ob_type o1 ≠ ob_type o2) →
     factor_product args s
     = (inl (NotImplementedError
          "All the args are expected to be instances of the same factor class."), s) ∧
     factor_log_sum args s
     = (inl (NotImplementedError
          "All the args are expected to be instances of the same factor class."), s) ∧
     ∀ phi1 phi2, args = [phi1; phi2] →
       factor_divide phi1 phi2 s
       = (inl (NotImplementedError
            "All the args are expected to be instances of the same factor class."), s)).
Proof.
  intros Hrefs. split.
  - intros Hex.
    assert (Exists (λ t, tp_base_factor t = false) (ob_type <$> objs)) as Hex'.
    { apply Exists_fmap. done. }
    rewrite (factor_product_guarded _ _ _ Hrefs), (factor_log_sum_guarded _ _ _ Hrefs).
    rewrite !guard_invalid by done. split; [done|]. split; [done|].
    intros phi1 phi2 ->.
    apply Forall2_cons_inv_l in Hrefs as (o1 & objs1 & H1 & Hrefs & ->).
    apply Forall2_cons_inv_l in Hrefs as (o2 & objs2 & H2 & Hrefs & ->).
    apply Forall2_nil_inv_l in Hrefs as ->.
    rewrite (factor_divide_guarded _ _ _ _ _ H1 H2).
    by rewrite guard_invalid.
  - intros Hall (o1 & o2 & Ho1 & Ho2 & Hne).
    assert (Forall (λ t, tp_base_factor t = true) (ob_type <$> objs)) as Hall'.
    { apply Forall_fmap. done. }
    assert (∃ t1 t2, t1 ∈ ob_type <$> objs ∧ t2 ∈ ob_type <$> objs ∧ t1 ≠ t2) as Hmix.
    { exists (ob_type o1), (ob_type o2).
      split; [by apply list_elem_of_fmap_2|]. split; [by apply list_elem_of_fmap_2|done]. }
    rewrite (factor_product_guarded _ _ _ Hrefs), (factor_log_sum_guarded _ _ _ Hrefs).
    rewrite !guard_mixed by done. split; [done|]. split; [done|].
    intros phi1 phi2 ->.
    apply Forall2_cons_inv_l in Hrefs as (o1' & objs1 & H1 & Hrefs & ->).
    apply Forall2_cons_inv_l in Hrefs as (o2' & objs2 & H2 & Hrefs & ->).
    apply Forall2_nil_inv_l in Hrefs as ->.
    rewrite (factor_divide_guarded _ _ _ _ _ H1 H2).
    by rewrite guard_mixed.
Qed.

(** C2, amended.  In [factor_product], [factor_log_sum] and
    [factor_divide] the guard of section 4.2 is decided first, from the
    types of the operands alone: when it fails, its error is the result and
    the store is unchanged; only when it passes does the numeric part run.
    ([factor_sum_product] has no such guard.) *)
Theorem guard_runs_first (s : state R) (args : list loc) (objs : list (pyobj R)) :
  refs s args objs →
  factor_product args s
  = match homogeneity_guard "Arguments must be factors" (ob_type <$> objs) with
    | Some e => (inl e, s)
    | None => match args with
              | [phi] => method_copy phi s
              | _ => py_reduce method_mul args s
              end
    end ∧
  factor_log_sum args s
  = match homogeneity_guard "Arguments must be log factors" (ob_type <$> objs) with
    | Some e => (inl e, s)
    | None => (log_args ← mapM method_log args;
               match log_args with
               | [phi] => method_copy phi
               | _ => py_reduce method_add log_args
               end) s
    end ∧
  ∀ phi1 phi2, args = [phi1; phi2] →
    factor_divide phi1 phi2 s
    = match homogeneity_guard "phi1 and phi2 should be factors instances"
              (ob_type <$> objs) with
      | Some e => (inl e, s)
      | None => method_divide phi1 phi2 s
      end.
Proof.
  intros Hrefs.
  split; [by apply factor_product_guarded|].
  split; [by apply factor_log_sum_guarded|].
  intros phi1 phi2 ->.
  apply Forall2_cons_inv_l in Hrefs as (o1 & objs1 & H1 & Hrefs & ->).
  apply Forall2_cons_inv_l in Hrefs as (o2 & objs2 & H2 & Hrefs & ->).
  apply Forall2_nil_inv_l in Hrefs as ->.
  by apply factor_divide_guarded.
Qed.

End rejection.

(** ** Methods that allocate *)

Lemma pyobj_eta {R} (o : pyobj R) d :
  ob_fields o = Some d → PyObj (ob_type o) (Some d) = o.
Proof. destruct o; simpl; by intros ->. Qed.

Lemma refs_extend {R} (s s' : state R) args objs :
  heap s `prefix_of` heap s' → refs s args objs → refs s' args objs.
Proof.
  intros [k Hk] Hrefs. unfold refs in *. rewrite Hk.
  eapply Forall2_impl; [done|]. intros l o Hl. by apply lookup_app_l_Some.
Qed.

Section methods.
Context {R : Type} `{Scalar R}.

Lemma run_method_copy (s : state R) phi o d :
  heap s !! phi = Some o → ob_fields o = Some d →
  method_copy phi s
  = (inr (length (heap s)), State (heap s ++ [o]) (calls s ++ [CallCopy phi])).
Proof.
  intros Hl Hd. unfold method_copy.
  rewrite run_bind. simpl. rewrite run_bind, (run_deref _ _ o) by done.
  rewrite Hd. unfold alloc. simpl. by rewrite pyobj_eta.
Qed.

Lemma run_method_log (s : state R) phi o d :
  heap s !! phi = Some o → ob_fields o = Some d →
  method_log phi s
  = (inr (length (heap s)),
     State (heap s ++ [PyObj (ob_type o) (Some (log_fields d))])
           (calls s ++ [CallLog phi])).
Proof.
  intros Hl Hd. unfold method_log.
  rewrite run_bind. simpl. rewrite run_bind, (run_deref _ _ o) by done.
  by rewrite Hd.
Qed.

Lemma run_method_binary (s : state R) ev sym f phi1 phi2 o1 o2 d1 d2 :
  heap s !! phi1 = Some o1 → heap s !! phi2 = Some o2 →
  ob_fields o1 = Some d1 → ob_fields o2 = Some d2 →
  method_binary ev sym f phi1 phi2 s
  = match f d1 d2 with
    | inr d => (inr (length (heap s)),
                State (heap s ++ [PyObj (ob_type o1) (Some d)]) (calls s ++ [ev]))
    | inl e => (inl e, State (heap s) (calls s ++ [ev]))
    end.
Proof.
  intros Hl1 Hl2 Hd1 Hd2. unfold method_binary.
  rewrite run_bind. simpl. rewrite run_bind, (run_deref _ _ o1) by done.
  rewrite run_bind, (run_deref _ _ o2) by done.
  rewrite Hd1, Hd2, run_bind. unfold lift. by destruct (f d1 d2).
Qed.

Lemma run_method_divide (s : state R) phi1 phi2 o1 o2 d1 d2 :
  heap s !! phi1 = Some o1 → heap s !! phi2 = Some o2 →
  ob_fields o1 = Some d1 → ob_fields o2 = Some d2 →
  method_divide phi1 phi2 s
  = match factor_quotient d1 d2 with
    | inr d => (inr (length (heap s)),
                State (heap s ++ [PyObj (ob_type o1) (Some d)])
                      (calls s ++ [CallDivide phi1 phi2]))
    | inl e => (inl e, State (heap s) (calls s ++ [CallDivide phi1 phi2]))
    end.
Proof.
  intros Hl1 Hl2 Hd1 Hd2. unfold method_divide.
  rewrite run_bind. simpl. rewrite run_bind, (run_deref _ _ o1) by done.
  rewrite run_bind, (run_deref _ _ o2) by done.
  rewrite Hd1, Hd2, run_bind. unfold lift. by destruct (factor_quotient d1 d2).
Qed.

Lemma factor_combine_defined (op : R → R → R) (d1 d2 : factor_fields R) :
  cards_agree d1 d2 → ∃ d, factor_combine op d1 d2 = inr d.
Proof. intros Hagree. unfold factor_combine. rewrite decide_True by done. eauto. Qed.

(** C4.  For a factor [phi], [factor_product(phi)] returns a reference to
    a new object, different from [phi], that holds the same class and the
    same attributes as [phi] (variables, cardinality, values and state
    names); [phi] is as it was, and stays so whatever is later stored at
    the new reference. *)
Theorem product_of_one_is_a_copy (s : state R) (phi : loc) (o : pyobj R)
    (d : factor_fields R) :
  heap s !! phi = Some o →
  tp_base_factor (ob_type o) = true →
  ob_fields o = Some d →
  ∃ phi' s',
    factor_product [phi] s = (inr phi', s') ∧
    phi' ≠ phi ∧
    heap s !! phi' = None ∧
    heap s' !! phi' = Some o ∧
    heap s' !! phi = Some o ∧
    ∀ o', <[phi' := o']> (heap s') !! phi = Some o.
Proof.
  intros Hl Hbase Hd.
  assert (phi < length (heap s)) as Hlt by (by eapply lookup_lt_Some).
  exists (length (heap s)), (State (heap s ++ [o]) (calls s ++ [CallCopy phi])).
  assert (refs s [phi] [o]) as Hrefs by (by repeat constructor).
  rewrite (factor_product_guarded _ _ _ Hrefs).
  rewrite (guard_passes _ (ob_type o)) by (done || by repeat constructor).
  rewrite (run_method_copy _ _ _ _ Hl Hd). simpl.
  split; [done|]. split; [lia|].
  split; [by apply lookup_ge_None_2|].
  split; [by rewrite lookup_app_r, Nat.sub_diag by lia|].
  split; [by apply lookup_app_l_Some|].
  intros o'. rewrite list_lookup_insert_ne by lia. by apply lookup_app_l_Some.
Qed.

(** C8.  For two factors of one class, [factor_divide(phi1, phi2)] leaves
    every object of the store as it was, the dividend and the divisor
    among them; when it returns, the result is a reference that was not in
    use before, different from both operands, to a new object that holds the
    quotient; and it does return when the scope of the divisor is within
    that of the dividend and the cardinalities agree. *)
Theorem divide_allocates_fresh (s : state R) (phi1 phi2 : loc)
    (o1 o2 : pyobj R) (d1 d2 : factor_fields R) :
  heap s !! phi1 = Some o1 → heap s !! phi2 = Some o2 →
  tp_base_factor (ob_type o1) = true → ob_type o2 = ob_type o1 →
  ob_fields o1 = Some d1 → ob_fields o2 = Some d2 →
  ∃ r s',
    factor_divide phi1 phi2 s = (r, s') ∧
    (∀ l o, heap s !! l = Some o → heap s' !! l = Some o) ∧
    heap s' !! phi1 = Some o1 ∧ heap s' !! phi2 = Some o2 ∧
    (∀ phi, r = inr phi →
       heap s !! phi = None ∧ phi ≠ phi1 ∧ phi ≠ phi2 ∧
       ∃ d, factor_quotient d1 d2 = inr d ∧
            heap s' !! phi = Some (PyObj (ob_type o1) (Some d))) ∧
    (variables d2 ⊆ variables d1 → cards_agree d1 d2 → ∃ phi, r = inr phi).
Proof.
  intros Hl1 Hl2 Hbase Hty Hd1 Hd2.
  assert (phi1 < length (heap s)) as Hlt1 by (by eapply lookup_lt_Some).
  assert (phi2 < length (heap s)) as Hlt2 by (by eapply lookup_lt_Some).
  rewrite (factor_divide_guarded _ _ _ _ _ Hl1 Hl2).
  rewrite (guard_passes _ (ob_type o1)) by (done || by repeat constructor).
  rewrite (run_method_divide _ _ _ _ _ _ _ Hl1 Hl2 Hd1 Hd2).
  destruct (factor_quotient d1 d2) as [e|d] eqn:Hq.
  - eexists _, _. split; [done|]. simpl.
    split; [done|]. split; [done|]. split; [done|].
    split; [by intros phi [=]|].
    intros Hsub Hagree. unfold factor_quotient in Hq.
    rewrite decide_True in Hq by done.
    destruct (factor_combine_defined s_div _ _ Hagree) as [d Hd]. congruence.
  - eexists _, _. split; [done|]. simpl.
    split; [by intros l o Hl; apply lookup_app_l_Some|].
    split; [by apply lookup_app_l_Some|].
    split; [by apply lookup_app_l_Some|].
    split; [|by eauto].
    intros phi [= <-].
    split; [by apply lookup_ge_None_2|]. split; [lia|]. split; [lia|].
    exists d. split; [done|]. by rewrite lookup_app_r, Nat.sub_diag by lia.
Qed.

End methods.

(** ** Folding a binary operator *)

Lemma reduce_fields_raised {R} (f : factor_fields R → factor_fields R → exn + factor_fields R)
    (e : exn) (ds : list (factor_fields R)) :
  foldl (λ acc d', match acc with inr a => f a d' | inl e => inl e end) (inl e) ds
  = inl e.
Proof. induction ds as [|d ds IH]; [done|]. simpl. apply IH. Qed.

Lemma refs_seq {R} (h : list (pyobj R)) (c : list event) (objs : list (pyobj R)) :
  refs (State (h ++ objs) c) (seq (length h) (length objs)) objs.
Proof.
  unfold refs. simpl. revert h.
  induction objs as [|o objs IH]; intros h; [constructor|].
  simpl. constructor.
  - by rewrite lookup_app_r, Nat.sub_diag by lia.
  - specialize (IH (h ++ [o])). rewrite length_app in IH. simpl in IH.
    rewrite Nat.add_1_r, <- app_assoc in IH. done.
Qed.

Section folds.
Context {R : Type} `{Scalar R}.

Lemma run_logs (args : list loc) : ∀ (objs : list (pyobj R)) ds (s : state R),
  refs s args objs → have_fields objs ds →
  mapM method_log args s
  = (inr (seq (length (heap s)) (length args)),
     State (heap s ++ zip_with (λ o d, PyObj (ob_type o) (Some (log_fields d))) objs ds)
           (calls s ++ (CallLog <$> args))).
Proof.
  induction args as [|phi args IH]; intros objs ds s Hrefs Hds.
  - apply Forall2_nil_inv_l in Hrefs as ->. apply Forall2_nil_inv_l in Hds as ->.
    simpl. rewrite !app_nil_r. by destruct s.
  - apply Forall2_cons_inv_l in Hrefs as (o & objs' & Hl & Hrefs & ->).
    apply Forall2_cons_inv_l in Hds as (d & ds' & Hd & Hds & ->).
    simpl. rewrite run_bind, (run_method_log _ _ _ _ Hl Hd).
    rewrite run_bind.
    rewrite (IH objs' ds'); [|eapply refs_extend; [|done]; by apply prefix_app_r|done].
    simpl. rewrite length_app. simpl. rewrite Nat.add_1_r.
    by rewrite <- !app_assoc.
Qed.


End folds.

(** ** State names *)

Section names.
Context {R : Type}.
Implicit Types (ds : list (factor_fields R)) (v : string).

Lemma merge_names_snoc ds (d : factor_fields R) :
  merge_names (ds ++ [d]) = state_names d ∪ merge_names ds.
Proof. unfold merge_names. by rewrite foldl_app. Qed.

Lemma merge_names_None ds v :
  (∀ d, d ∈ ds → state_names d !! v = None) → merge_names ds !! v = None.
Proof.
  induction ds as [|d ds IH] using rev_ind; intros Hnone; [done|].
  rewrite merge_names_snoc, lookup_union_None. split.
  - apply Hnone, elem_of_app. right. by apply list_elem_of_singleton.
  - apply IH. intros d' Hd'. apply Hnone, elem_of_app. by left.
Qed.

Lemma merge_names_Some_inv ds v ns :
  merge_names ds !! v = Some ns → ∃ d, d ∈ ds ∧ state_names d !! v = Some ns.
Proof.
  induction ds as [|d ds IH] using rev_ind; [done|].
  rewrite merge_names_snoc, lookup_union_Some_raw.
  intros [Hd|[_ Hds]].
  - exists d. split; [|done]. apply elem_of_app. right. by apply list_elem_of_singleton.
  - destruct (IH Hds) as (d' & Hin & Hd'). exists d'. split; [|done].
    apply elem_of_app. by left.
Qed.

Lemma merge_names_is_Some ds (d : factor_fields R) v :
  d ∈ ds → is_Some (state_names d !! v) → is_Some (merge_names ds !! v).
Proof.
  intros Hin Hsome. destruct (merge_names ds !! v) eqn:Hm; [done|].
  destruct Hsome as [ns Hns]. exfalso.
  revert Hin Hm. induction ds as [|d' ds IH] using rev_ind; intros Hin Hm.
  - by apply elem_of_nil in Hin.
  - rewrite merge_names_snoc in Hm. apply lookup_union_None in Hm as [Hd' Hds].
    apply elem_of_app in Hin as [Hin|Hin]; [by apply IH|].
    apply list_elem_of_singleton in Hin as ->. congruence.
Qed.

(** On a collision the later factor wins. *)
Lemma merge_names_last pre (d : factor_fields R) post v ns :
  state_names d !! v = Some ns →
  (∀ d', d' ∈ post → state_names d' !! v = None) →
  merge_names (pre ++ d :: post) !! v = Some ns.
Proof.
  intros Hd. induction post as [|d' post IH] using rev_ind; intros Hpost.
  - rewrite merge_names_snoc. by apply lookup_union_Some_l.
  - rewrite app_comm_cons, app_assoc, merge_names_snoc.
    rewrite lookup_union_r.
    + apply IH. intros d'' Hd''. apply Hpost, elem_of_app. by left.
    + apply Hpost, elem_of_app. right. by apply list_elem_of_singleton.
Qed.

Lemma dict_comp_lookup (names : gmap string (list string)) (out : list string) :
  ∀ acc,
  (∀ u, u ∈ out → is_Some (names !! u)) →
  ∃ m, dict_comp names out acc = inr m ∧
       ∀ u, m !! u = if decide (u ∈ out) then names !! u else acc !! u.
Proof.
  induction out as [|v out IH]; intros acc Hknown.
  - exists acc. split; [done|]. intros u. rewrite decide_False; [done|].
    apply not_elem_of_nil.
  - simpl. destruct (Hknown v) as [ns Hns]; [by left|]. rewrite Hns.
    destruct (IH (<[v := ns]> acc)) as (m & Hm & Hlook).
    { intros u Hu. apply Hknown. by right. }
    exists m. split; [done|]. intros u. rewrite Hlook.
    destruct (decide (u ∈ out)) as [Hin|Hnin].
    + rewrite decide_True; [done | by right].
    + destruct (decide (u = v)) as [->|Hne].
      * rewrite decide_True by (by left). by rewrite lookup_insert_eq.
      * rewrite decide_False; [by rewrite lookup_insert_ne|].
        intros [?|?]%elem_of_cons; done.
Qed.

(** The comprehension stops at the first variable without an entry. *)
Lemma dict_comp_KeyError (names : gmap string (list string)) (out : list string) v :
  v ∈ out → names !! v = None →
  ∀ acc, ∃ u, dict_comp names out acc = inl (KeyError u) ∧ u ∈ out ∧ names !! u = None.
Proof.
  induction out as [|w out IH]; intros Hin Hv acc.
  - by apply elem_of_nil in Hin.
  - simpl. destruct (names !! w) as [ns|] eqn:Hw.
    + apply elem_of_cons in Hin as [->|Hin]; [congruence|].
      destruct (IH Hin Hv (<[w := ns]> acc)) as (u & Hu & Hinu & Hnone).
      exists u. split; [done|]. split; [by right | done].
    + exists w. split; [done|]. split; [by left | done].
Qed.

End names.

(** ** Running [factor_sum_product] *)

Section sum_product_run.
Context {R : Type} `{Scalar R} `{Backend R}.

Lemma run_merge (args : list loc) (objs : list (pyobj R)) ds (s : state R) :
  refs s args objs → have_fields objs ds →
  ∀ acc,
  foldlM (λ acc phi, d ← getattr "state_names" phi; mret (state_names d ∪ acc))
         acc args s
  = (inr (foldl (λ acc d, state_names d ∪ acc) acc ds), s).
Proof.
  intros Hrefs. revert ds.
  induction Hrefs as [|l o args objs Hl _ IH]; intros ds Hds acc.
  - by apply Forall2_nil_inv_l in Hds as ->.
  - apply Forall2_cons_inv_l in Hds as (d & ds' & Hd & Hds & ->).
    simpl. rewrite run_bind, run_bind, (run_getattr _ _ _ _ _ Hl Hd).
    rewrite run_ret. apply (IH ds' Hds).
Qed.

Lemma run_einsum_expr (args : list loc) (objs : list (pyobj R)) ds (s : state R) :
  refs s args objs → have_fields objs ds →
  mapM (λ phi, d ← getattr "values" phi; d' ← getattr "variables" phi;
               mret (values d, variables d')) args s
  = (inr (einsum_expr_of ds), s).
Proof.
  intros Hrefs. revert ds.
  induction Hrefs as [|l o args objs Hl _ IH]; intros ds Hds.
  - by apply Forall2_nil_inv_l in Hds as ->.
  - apply Forall2_cons_inv_l in Hds as (d & ds' & Hd & Hds & ->).
    simpl. rewrite run_bind, run_bind, (run_getattr _ _ _ _ _ Hl Hd).
    rewrite run_bind, (run_getattr _ _ _ _ _ Hl Hd), run_ret.
    by rewrite run_bind, (IH ds' Hds).
Qed.

(** The function, step by step, on operands that have the attributes. *)
Lemma factor_sum_product_run (s : state R) out args objs ds :
  refs s args objs → have_fields objs ds →
  factor_sum_product out args s
  = let s1 := State (heap s) (calls s ++ [CallContract]) in
    match contract (einsum_expr_of ds) out with
    | inl e => (inl e, s1)
    | inr vals =>
        match dict_comp (merge_names ds) out ∅ with
        | inl e => (inl e, s1)
        | inr names' => DiscreteFactor_init out (shape vals) vals names' s1
        end
    end.
Proof.
  intros Hrefs Hds. unfold factor_sum_product.
  rewrite run_bind, (run_merge _ _ _ _ Hrefs Hds).
  rewrite run_bind, (run_einsum_expr _ _ _ _ Hrefs Hds).
  rewrite run_bind. simpl. rewrite run_bind. unfold lift at 1.
  destruct (contract (einsum_expr_of ds) out) as [e|vals]; [done|].
  rewrite run_bind. unfold lift. fold (merge_names ds).
  by destruct (dict_comp (merge_names ds) out ∅).
Qed.


End sum_product_run.

(** ** The operands of the contraction *)

Lemma zip_fmap_diag {A B} (f : A → B) (l : list A) :
  zip l (f <$> l) = (λ x, (x, f x)) <$> l.
Proof. induction l as [|x l IH]; [done|]. simpl. f_equal. exact IH. Qed.

Lemma elem_of_zip_same_length {A B} (l : list A) (k : list B) x :
  length l = length k → x ∈ l → ∃ y, (x, y) ∈ zip l k.
Proof.
  intros Hlen (i & Hi)%list_elem_of_lookup.
  destruct (lookup_lt_is_Some_2 k i) as [y Hy].
  { rewrite <- Hlen. by eapply lookup_lt_Some. }
  exists y. apply list_elem_of_lookup. exists i.
  apply lookup_zip_with_Some. eauto.
Qed.

Section operands.
Context {R : Type} `{Scalar R}.
Implicit Types (ds : list (factor_fields R)) (d : factor_fields R).

Lemma factor_ok_shape d : factor_ok d → shape (values d) = cardinality d.
Proof. by intros (_ & _ & ? & _). Qed.

Lemma factor_ok_length d : factor_ok d → length (cardinality d) = length (variables d).
Proof. by intros (? & _). Qed.

Lemma factor_ok_NoDup d : factor_ok d → NoDup (variables d).
Proof. by intros (_ & ? & _). Qed.

Lemma factor_ok_names d v :
  factor_ok d → (is_Some (state_names d !! v) ↔ v ∈ variables d).
Proof.
  intros (_ & _ & _ & _ & Hdom & _).
  rewrite <- elem_of_dom, Hdom, elem_of_list_to_set. done.
Qed.

Lemma factor_ok_names_length d v c ns :
  factor_ok d → (v, c) ∈ card_items d → state_names d !! v = Some ns →
  length ns = c.
Proof.
  intros (_ & _ & _ & _ & _ & Hlen) Hin Hns.
  rewrite Forall_forall in Hlen. specialize (Hlen _ Hin). simpl in Hlen.
  rewrite Hns in Hlen. simpl in Hlen. congruence.
Qed.

Lemma label_dims_expr ds :
  Forall factor_ok ds → label_dims (einsum_expr_of ds) = ds ≫= card_items.
Proof.
  induction 1 as [|d ds Hd _ IH]; [done|].
  unfold label_dims, einsum_expr_of in *. rewrite fmap_cons, !bind_cons, IH.
  simpl. unfold card_items at 1. by rewrite (factor_ok_shape _ Hd).
Qed.

Lemma labels_expr ds : einsum_expr_of ds ≫= snd = ds ≫= variables.
Proof.
  induction ds as [|d ds IH]; [done|].
  unfold einsum_expr_of in *. by rewrite fmap_cons, !bind_cons, IH.
Qed.

Lemma label_dim_expr ds l :
  Forall factor_ok ds → label_dim (einsum_expr_of ds) l = card_in ds l.
Proof. intros Hok. unfold label_dim, card_in. by rewrite label_dims_expr. Qed.

Lemma summed_labels_expr ds out :
  summed_labels (einsum_expr_of ds) out = hidden_vars out ds.
Proof. unfold summed_labels, hidden_vars, labels. by rewrite labels_expr. Qed.

Lemma operands_ok_expr ds :
  Forall factor_ok ds → cards_consistent ds → operands_ok (einsum_expr_of ds).
Proof.
  intros Hok Hcons. split.
  - unfold einsum_expr_of. apply Forall_fmap. eapply Forall_impl; [done|].
    intros d Hd. unfold operand_ok. simpl.
    destruct Hd as (Hlen & Hnd & Hsh & Hsz & _). rewrite Hsh. done.
  - rewrite label_dims_expr by done. eapply Forall_impl; [exact Hcons|].
    intros q Hq. simpl in *. by rewrite label_dim_expr.
Qed.

(** On the operands of [factor_sum_product], the named contraction is the
    table of the marginal. *)
Lemma named_contraction_expr ds out :
  Forall factor_ok ds →
  named_contraction (einsum_expr_of ds) out
  = tabulate (card_in ds <$> out) (marginal out ds).
Proof.
  intros Hok. unfold named_contraction, marginal, joint.
  rewrite summed_labels_expr.
  assert (label_dim (einsum_expr_of ds) <$> out = card_in ds <$> out) as ->.
  { apply list_fmap_ext. intros ? l _. by apply label_dim_expr. }
  assert (label_dim (einsum_expr_of ds) <$> hidden_vars out ds
          = card_in ds <$> hidden_vars out ds) as ->.
  { apply list_fmap_ext. intros ? l _. by apply label_dim_expr. }
  apply tabulate_ext. intros oi _. f_equal.
  apply list_fmap_ext. intros ? si _. f_equal.
  unfold einsum_expr_of. rewrite <- list_fmap_compose. done.
Qed.

Lemma out_known ds out u :
  Forall factor_ok ds → out ⊆ ds ≫= variables → u ∈ out →
  is_Some (merge_names ds !! u).
Proof.
  intros Hok Hsub Hu. apply Hsub, list_elem_of_bind in Hu as (d & Hud & Hd).
  eapply merge_names_is_Some; [done|].
  apply factor_ok_names; [|done]. rewrite Forall_forall in Hok. by apply Hok.
Qed.

Lemma merged_length ds u ns :
  Forall factor_ok ds → cards_consistent ds →
  merge_names ds !! u = Some ns → length ns = card_in ds u.
Proof.
  intros Hok Hcons (d & Hd & Hns)%merge_names_Some_inv.
  rewrite Forall_forall in Hok. specialize (Hok d Hd).
  assert (u ∈ variables d) as Hu by (apply factor_ok_names; eauto).
  destruct (elem_of_zip_same_length (variables d) (cardinality d) u) as [c Hc];
    [by rewrite factor_ok_length | done |].
  rewrite (factor_ok_names_length d u c ns) by done.
  unfold cards_consistent in Hcons. rewrite Forall_forall in Hcons.
  symmetry. apply (Hcons (u, c)). apply list_elem_of_bind. by exists d.
Qed.

End operands.

(** ** [factor_sum_product] returns the marginal *)

Lemma ndindex_one (m : nat) : ndindex [m] = (λ i, [i]) <$> seq 0 m.
Proof.
  simpl. generalize 0. induction m as [|m IH]; intros k; [done|].
  simpl. by rewrite IH.
Qed.

Section sum_product_correct.
Context {R : Type} `{Scalar R}.
Implicit Types (ds : list (factor_fields R)) (d : factor_fields R).

Lemma result_ok ds (out : list string) (names' : gmap string (list string)) :
  Forall factor_ok ds → cards_consistent ds → NoDup out →
  out ⊆ ds ≫= variables →
  (∀ u, names' !! u = if decide (u ∈ out) then merge_names ds !! u else None) →
  factor_ok (Fields out (card_in ds <$> out)
               (tabulate (card_in ds <$> out) (marginal out ds)) names').
Proof.
  intros Hok Hcons Hnd Hsub Hnames. unfold factor_ok. simpl.
  split; [by rewrite length_fmap|]. split; [done|]. split; [done|].
  split; [apply tabulate_ok|]. split.
  - apply set_eq. intros u. rewrite elem_of_dom, elem_of_list_to_set, Hnames.
    destruct (decide (u ∈ out)) as [Hu|Hu].
    + split; [done|]. intros _. by eapply out_known.
    + split; [by intros [? [=]] | done].
  - rewrite zip_fmap_diag. apply Forall_fmap, Forall_forall. intros u Hu. simpl.
    rewrite Hnames, decide_True by done.
    destruct (out_known ds out u Hok Hsub Hu) as [ns Hns]. rewrite Hns. simpl.
    f_equal. by eapply merged_length.
Qed.

Context `{Backend R} `{!BackendSpec R}.

Lemma sum_product_returns (s : state R) out args objs ds :
  refs s args objs → have_fields objs ds → ds ≠ [] →
  Forall factor_ok ds → cards_consistent ds → NoDup out →
  out ⊆ ds ≫= variables →
  ∃ names',
    (∀ u, names' !! u = if decide (u ∈ out) then merge_names ds !! u else None) ∧
    factor_sum_product out args s
    = (inr (length (heap s)),
       State (heap s ++ [PyObj DiscreteFactor (Some
                (Fields out (card_in ds <$> out)
                   (tabulate (card_in ds <$> out) (marginal out ds)) names'))])
             (calls s ++ [CallContract])).
Proof.
  intros Hrefs Hds Hne Hok Hcons Hnd Hsub.
  rewrite (factor_sum_product_run _ _ _ _ _ Hrefs Hds). cbv zeta.
  rewrite contract_spec; first last.
  - unfold labels. rewrite labels_expr. intros u Hu.
    apply elem_of_remove_dups. by apply Hsub.
  - done.
  - by apply operands_ok_expr.
  - destruct ds; [done|]. done.
  - rewrite named_contraction_expr by done.
    destruct (dict_comp_lookup (merge_names ds) out ∅) as (names' & Hcomp & Hlook).
    { intros u Hu. by eapply out_known. }
    assert (∀ u, names' !! u
                 = if decide (u ∈ out) then merge_names ds !! u else None) as Hnames.
    { intros u. rewrite Hlook. by destruct (decide (u ∈ out)). }
    exists names'. split; [done|]. rewrite Hcomp.
    unfold DiscreteFactor_init. simpl.
    rewrite decide_True; [done|]. by apply result_ok.
Qed.

(** C5.  When a requested variable [v] is in the scope of several input
    factors, whatever state names the earlier ones give it, no error is
    raised, and the state names of [v] in the result are those of the last
    factor of the list that has [v] in its scope. *)
Theorem later_state_names_win (s : state R) (out : list string)
    (args : list loc) (objs : list (pyobj R))
    (pre : list (factor_fields R)) (d : factor_fields R)
    (post : list (factor_fields R)) (v : string) :
  refs s args objs → have_fields objs (pre ++ d :: post) →
  Forall factor_ok (pre ++ d :: post) → cards_consistent (pre ++ d :: post) →
  NoDup out → out ⊆ (pre ++ d :: post) ≫= variables →
  v ∈ out → v ∈ variables d → (∀ d', d' ∈ post → v ∉ variables d') →
  ∃ phi s' r,
    factor_sum_product out args s = (inr phi, s') ∧
    heap s' !! phi = Some (PyObj DiscreteFactor (Some r)) ∧
    is_Some (state_names r !! v) ∧
    state_names r !! v = state_names d !! v.
Proof.
  intros Hrefs Hds Hok Hcons Hnd Hsub Hv Hvd Hpost.
  destruct (sum_product_returns s out args objs _ Hrefs Hds) as (names' & Hnames & Hrun);
    [by destruct pre|done..|].
  eexists _, _, _. split; [exact Hrun|]. simpl.
  split; [by rewrite lookup_app_r, Nat.sub_diag by lia|]. simpl.
  assert (factor_ok d) as Hokd.
  { rewrite Forall_forall in Hok. apply Hok, elem_of_app. right. by left. }
  destruct (proj2 (factor_ok_names d v Hokd) Hvd) as [ns Hns].
  assert (names' !! v = Some ns) as Hres.
  { rewrite Hnames, decide_True by done. apply merge_names_last; [done|].
    intros d' Hd'. apply eq_None_not_Some. intros Hsome.
    apply (Hpost d' Hd'). apply factor_ok_names; [|done].
    rewrite Forall_forall in Hok. apply Hok, elem_of_app. right. by right. }
  rewrite Hres, Hns. done.
Qed.

End sum_product_correct.

(** ** Assignments *)

Lemma lookup_assignment (ls : list string) (idx : list nat) i l k :
  NoDup ls → length ls = length idx →
  ls !! i = Some l → idx !! i = Some k → assignment ls idx !! l = Some k.
Proof.
  intros Hnd Hlen Hl Hk. unfold assignment.
  apply elem_of_list_to_map_1.
  - by rewrite fst_zip by lia.
  - apply list_elem_of_lookup. exists i. apply lookup_zip_with_Some. eauto.
Qed.

Lemma at_assignment_assignment (ls : list string) (idx : list nat) :
  NoDup ls → length ls = length idx →
  at_assignment (assignment ls idx) ls = idx.
Proof.
  intros Hnd Hlen. apply list_eq. intros i. unfold at_assignment.
  rewrite list_lookup_fmap.
  destruct (ls !! i) as [l|] eqn:Hl; simpl.
  - destruct (lookup_lt_is_Some_2 idx i) as [k Hk].
    { rewrite <- Hlen. by eapply lookup_lt_Some. }
    by rewrite (lookup_assignment ls idx i l k), Hk.
  - symmetry. apply lookup_ge_None. rewrite <- Hlen. by apply lookup_ge_None.
Qed.

Lemma lookup_assignment_at (ρ : gmap string nat) (out : list string) l :
  l ∈ out →
  assignment out (at_assignment ρ out) !! l = Some (default 0 (ρ !! l)).
Proof.
  unfold assignment, at_assignment. rewrite zip_fmap_diag.
  induction out as [|x out IH]; intros Hl; [by apply elem_of_nil in Hl|].
  rewrite fmap_cons, list_to_map_cons.
  destruct (decide (l = x)) as [->|Hne].
  - by rewrite lookup_insert_eq.
  - rewrite lookup_insert_ne by done. apply IH.
    by apply elem_of_cons in Hl as [?|?].
Qed.

Lemma at_assignment_ext (ρ ρ' : gmap string nat) (ls : list string) :
  (∀ l, l ∈ ls → default 0 (ρ !! l) = default 0 (ρ' !! l)) →
  at_assignment ρ ls = at_assignment ρ' ls.
Proof.
  intros Hext. unfold at_assignment. apply list_fmap_ext.
  intros i l Hl. apply Hext. by eapply list_elem_of_lookup_2.
Qed.

(** Reading an assignment back through a list of variables that covers
    [ls] does not change what it selects along [ls]. *)
Lemma at_assignment_restrict (ρ : gmap string nat) (out ls : list string) :
  ls ⊆ out →
  at_assignment (assignment out (at_assignment ρ out)) ls = at_assignment ρ ls.
Proof.
  intros Hsub. apply at_assignment_ext. intros l Hl.
  by rewrite lookup_assignment_at by (by apply Hsub).
Qed.

Lemma filter_fst {A B} (P : A → Prop) (l : list (A * B))
    (H1 : ∀ p : A * B, Decision (P p.1)) (H2 : ∀ x, Decision (P x)) :
  (filter (λ p, P p.1) l).*1 = filter P l.*1.
Proof.
  induction l as [|[a b] l IH]; [done|].
  rewrite fmap_cons. simpl. destruct (decide (P a)) as [Ha|Ha].
  - rewrite !filter_cons_True by done. by rewrite fmap_cons, IH.
  - by rewrite !filter_cons_False by done.
Qed.

Lemma filter_none {A} (P : A → Prop) `{∀ x, Decision (P x)} (l : list A) :
  (∀ x, x ∈ l → ¬ P x) → filter P l = [].
Proof.
  induction l as [|x l IH]; intros Hno; [done|].
  rewrite filter_cons_False by (apply Hno; by left).
  apply IH. intros y Hy. apply Hno. by right.
Qed.

Lemma bind_pair {A B} (f : A → list B) (x y : A) : [x; y] ≫= f = f x ++ f y.
Proof. rewrite !bind_cons. change ([] ≫= f) with (@nil B). by rewrite app_nil_r. Qed.

(** ** Two factors: the product and the contraction *)

Section two_factors.
Context {R : Type} `{Scalar R}.
Implicit Types (d : factor_fields R).

Lemma card_items_fst d : factor_ok d → (card_items d).*1 = variables d.
Proof. intros Hok. unfold card_items. rewrite fst_zip; [done|]. rewrite factor_ok_length; done. Qed.

Lemma card_items_snd d : factor_ok d → (card_items d).*2 = cardinality d.
Proof. intros Hok. unfold card_items. rewrite snd_zip; [done|]. rewrite factor_ok_length; done. Qed.

Lemma card_of_item d v c :
  factor_ok d → (v, c) ∈ card_items d → card_of d v = Some c.
Proof.
  intros Hok Hin. unfold card_of. apply elem_of_list_to_map_1; [|done].
  rewrite card_items_fst by done. by apply factor_ok_NoDup.
Qed.

Lemma cards_agree_consistent d1 d2 :
  factor_ok d1 → factor_ok d2 → cards_agree d1 d2 → cards_consistent [d1; d2].
Proof.
  intros Hok1 Hok2 Hagree. unfold cards_consistent, card_in.
  rewrite bind_pair, list_to_map_app.
  apply Forall_app. split; apply Forall_forall; intros [v c] Hin; simpl.
  - rewrite (lookup_union_Some_l _ _ v c); [done|].
    by apply (card_of_item d1).
  - unfold cards_agree in Hagree. rewrite Forall_forall in Hagree.
    destruct (Hagree _ Hin) as [Hnone|Hsome]; simpl in *.
    + unfold card_of in Hnone. rewrite lookup_union_r by done.
      pose proof (card_of_item d2 v c Hok2 Hin) as Hc. unfold card_of in Hc.
      by rewrite Hc.
    + unfold card_of in Hsome. by rewrite (lookup_union_Some_l _ _ v c).
Qed.

Lemma card_in_items (ds : list (factor_fields R)) (l : list (string * nat)) :
  Forall (λ q, card_in ds q.1 = q.2) l → card_in ds <$> l.*1 = l.*2.
Proof.
  induction 1 as [|[v c] l Hq _ IH]; [done|].
  rewrite !fmap_cons. simpl in *. by rewrite Hq, IH.
Qed.

(** The scope and the cardinality of a product (section 4.3). *)
Lemma combine_scope op d1 d2 d :
  factor_ok d1 → factor_ok d2 →
  factor_combine op d1 d2 = inr d →
  variables d = variables d1 ++ filter (λ v, v ∉ variables d1) (variables d2) ∧
  cardinality d = card_in [d1; d2] <$> variables d ∧
  length (cardinality d) = length (variables d) ∧
  NoDup (variables d).
Proof.
  intros Hok1 Hok2. unfold factor_combine.
  destruct (decide (cards_agree d1 d2)) as [Hagree|]; [|done].
  intros [= <-]. simpl.
  pose proof (cards_agree_consistent d1 d2 Hok1 Hok2 Hagree) as Hcons.
  unfold cards_consistent in Hcons.
  rewrite bind_pair in Hcons.
  apply Forall_app in Hcons as [Hc1 Hc2].
  set (E := filter (λ p : string * nat, p.1 ∉ variables d1) (card_items d2)).
  assert (E.*1 = filter (λ v, v ∉ variables d1) (variables d2)) as HE1.
  { unfold E. etrans; [apply (filter_fst (λ v, v ∉ variables d1))|].
    by rewrite card_items_fst. }
  assert (card_in [d1; d2] <$> E.*1 = E.*2) as HE2.
  { apply card_in_items, Forall_forall. intros q [_ Hq]%list_elem_of_filter.
    rewrite Forall_forall in Hc2. by apply Hc2. }
  assert (card_in [d1; d2] <$> variables d1 = cardinality d1) as H1.
  { rewrite <- (card_items_fst d1), <- (card_items_snd d1) by done.
    by apply card_in_items. }
  split; [by rewrite HE1|]. split; [|split].
  - by rewrite fmap_app, HE2, H1.
  - rewrite !length_app, !length_fmap. by rewrite factor_ok_length.
  - rewrite HE1. apply NoDup_app. split; [by apply factor_ok_NoDup|]. split.
    + intros v Hv [Hnin _]%list_elem_of_filter. done.
    + apply NoDup_filter. by apply factor_ok_NoDup.
Qed.

End two_factors.

Lemma lookup_zip_fmap (f : string → nat) (l : list string) (v : string) :
  (list_to_map (zip l (f <$> l)) : gmap string nat) !! v
  = if decide (v ∈ l) then Some (f v) else None.
Proof.
  rewrite zip_fmap_diag. induction l as [|x l IH].
  - rewrite decide_False by apply not_elem_of_nil. done.
  - rewrite fmap_cons, list_to_map_cons.
    destruct (decide (v = x)) as [->|Hne].
    + rewrite lookup_insert_eq, decide_True; [done | by left].
    + rewrite lookup_insert_ne, IH by done.
      destruct (decide (v ∈ l)) as [Hin|Hnin].
      * rewrite decide_True; [done | by right].
      * rewrite decide_False; [done|]. by intros [?|?]%elem_of_cons.
Qed.

Lemma at_assignment_in_bounds (vars out : list string) (idx : list nat)
    (c : string → nat) :
  NoDup vars → in_bounds idx (c <$> vars) → out ⊆ vars →
  in_bounds (at_assignment (assignment vars idx) out) (c <$> out).
Proof.
  intros Hnd Hb Hsub. unfold in_bounds, at_assignment.
  apply Forall2_fmap, Forall_Forall2_diag, Forall_forall. intros u Hu.
  apply Hsub, list_elem_of_lookup in Hu as [i Hi].
  pose proof (Forall2_length _ _ _ Hb) as Hlen. rewrite length_fmap in Hlen.
  destruct (lookup_lt_is_Some_2 idx i) as [k Hk].
  { rewrite Hlen. by eapply lookup_lt_Some. }
  rewrite (lookup_assignment vars idx i u k) by done. simpl.
  eapply (Forall2_lookup_lr _ _ _ i k (c u)) in Hb; [done..|].
  by rewrite list_lookup_fmap, Hi.
Qed.

Section product_vs_contraction.
Context {R : Type} `{Scalar R} `{!ScalarLaws R}.
Implicit Types (d : factor_fields R).

Lemma marginal_nothing_hidden (ds : list (factor_fields R)) out oi :
  ds ≫= variables ⊆ out → marginal out ds oi = joint ds (assignment out oi).
Proof.
  intros Hsub. unfold marginal.
  assert (hidden_vars out ds = []) as ->.
  { apply filter_none. intros v Hv Hn. cbv beta in Hn.
    rewrite elem_of_remove_dups in Hv. apply Hn, Hsub, Hv. }
  rewrite !app_nil_r. unfold sum_list. simpl.
  by rewrite app_nil_r, s_add_0_l.
Qed.

Lemma joint_two d1 d2 ρ :
  joint [d1; d2] ρ = s_mul (factor_at d1 ρ) (factor_at d2 ρ).
Proof. unfold joint, prod_list. simpl. by rewrite s_mul_1_l. Qed.

Lemma combine_cell op d1 d2 d idx :
  factor_combine op d1 d2 = inr d → in_bounds idx (cardinality d) →
  nd_get (values d) idx
  = op (factor_at d1 (assignment (variables d) idx))
       (factor_at d2 (assignment (variables d) idx)).
Proof.
  unfold factor_combine. destruct (decide (cards_agree d1 d2)); [|done].
  intros [= <-] Hb. simpl in *. by rewrite nd_get_tabulate.
Qed.

Lemma combine_values op d1 d2 d :
  factor_combine op d1 d2 = inr d →
  values d
  = tabulate (cardinality d) (λ idx,
      op (factor_at d1 (assignment (variables d) idx))
         (factor_at d2 (assignment (variables d) idx))).
Proof.
  unfold factor_combine. destruct (decide (cards_agree d1 d2)); [|done].
  by intros [= <-].
Qed.

Lemma factor_at_restrict d ρ out :
  variables d ⊆ out →
  factor_at d (assignment out (at_assignment ρ out)) = factor_at d ρ.
Proof. intros Hsub. unfold factor_at. by rewrite at_assignment_restrict. Qed.

Context `{Backend R} `{!BackendSpec R}.

(** C3.  For two factors of one class that agree on the cardinality of
    the variables they share, and an output scope that lists, without
    repetition and in any order, the union of their scopes,
    [factor_sum_product] and [factor_product] both return; the two results
    have the same variables with the same cardinalities, and at every
    assignment the same cell.  When the output scope is the union in order
    of first appearance, the two results have the same list of variables,
    the same cardinality and the same array of values. *)
Theorem sum_product_over_union_is_product (s : state R) (a b : loc)
    (o1 o2 : pyobj R) (d1 d2 : factor_fields R) (out : list string) :
  heap s !! a = Some o1 → heap s !! b = Some o2 →
  ob_fields o1 = Some d1 → ob_fields o2 = Some d2 →
  tp_base_factor (ob_type o1) = true → ob_type o2 = ob_type o1 →
  factor_ok d1 → factor_ok d2 → cards_agree d1 d2 →
  NoDup out → (∀ v, v ∈ out ↔ v ∈ variables d1 ∨ v ∈ variables d2) →
  ∃ l1 s1 r1 l2 s2 r2,
    factor_sum_product out [a; b] s = (inr l1, s1) ∧
    heap s1 !! l1 = Some (PyObj DiscreteFactor (Some r1)) ∧
    factor_product [a; b] s = (inr l2, s2) ∧
    heap s2 !! l2 = Some (PyObj (ob_type o1) (Some r2)) ∧
    (∀ v, v ∈ variables r1 ↔ v ∈ variables r2) ∧
    (∀ v, card_of r1 v = card_of r2 v) ∧
    (∀ idx, in_bounds idx (cardinality r2) →
       factor_at r1 (assignment (variables r2) idx) = nd_get (values r2) idx) ∧
    (out = variables d1 ++ filter (λ v, v ∉ variables d1) (variables d2) →
       variables r1 = variables r2 ∧ cardinality r1 = cardinality r2 ∧
       values r1 = values r2).
Proof.
  intros Ha Hb Hd1 Hd2 Hbase Hty Hok1 Hok2 Hagree Hnd Hout.
  assert (refs s [a; b] [o1; o2]) as Hrefs by (by repeat constructor).
  assert (have_fields [o1; o2] [d1; d2]) as Hds by (by repeat constructor).
  assert (Forall factor_ok [d1; d2]) as Hok.
  { constructor; [exact Hok1|]. constructor; [exact Hok2|]. constructor. }
  pose proof (cards_agree_consistent d1 d2 Hok1 Hok2 Hagree) as Hcons.
  assert ([d1; d2] ≫= variables = variables d1 ++ variables d2) as Hvars
    by apply bind_pair.
  assert (∀ v, v ∈ out ↔ v ∈ [d1; d2] ≫= variables) as Hout'.
  { intros v. by rewrite Hvars, elem_of_app. }
  destruct (sum_product_returns s out [a; b] [o1; o2] [d1; d2])
    as (names' & Hnames & Hsp); [done..| |].
  { intros v. apply Hout'. }
  destruct (factor_combine_defined s_mul d1 d2 Hagree) as [r2 Hr2].
  destruct (combine_scope s_mul d1 d2 r2 Hok1 Hok2 Hr2)
    as (Hv2 & Hc2 & Hlen2 & Hnd2).
  assert (∀ v, v ∈ out ↔ v ∈ variables r2) as Hsame.
  { intros v. rewrite Hout, Hv2, elem_of_app, list_elem_of_filter.
    destruct (decide (v ∈ variables d1)) as [Hin|Hnin].
    - split; intros _; by left.
    - split; (intros [?|?]; [done|]); right; [done | tauto]. }
  eexists _, _, _, (length (heap s)), _, r2.
  split; [exact Hsp|]. simpl.
  split; [by rewrite lookup_app_r, Nat.sub_diag by lia|].
  split.
  { rewrite (factor_product_guarded _ _ _ Hrefs).
    rewrite (guard_passes _ (ob_type o1)) by (done || by repeat constructor).
    unfold py_reduce. simpl. rewrite run_bind. unfold method_mul.
    rewrite (run_method_binary _ _ _ _ _ _ _ _ _ _ Ha Hb Hd1 Hd2), Hr2.
    reflexivity. }
  simpl. split; [by rewrite lookup_app_r, Nat.sub_diag by lia|].
  split; [done|].
  assert (∀ idx, in_bounds idx (cardinality r2) →
            marginal out [d1; d2] (at_assignment (assignment (variables r2) idx) out)
            = nd_get (values r2) idx) as Hcell.
  { intros idx Hidx.
    rewrite marginal_nothing_hidden by (intros v; apply Hout').
    rewrite joint_two, (combine_cell _ _ _ _ _ Hr2 Hidx).
    rewrite !factor_at_restrict; [done| |].
    - intros v Hv. apply Hout. by right.
    - intros v Hv. apply Hout. by left. }
  split; [|split].
  - intros v. unfold card_of, card_items. simpl.
    rewrite Hc2, !lookup_zip_fmap.
    destruct (decide (v ∈ out)) as [Hin|Hnin].
    + rewrite decide_True; [done | by apply Hsame].
    + rewrite decide_False; [done|]. by rewrite <- Hsame.
  - intros idx Hidx. unfold factor_at at 1. simpl.
    rewrite nd_get_tabulate; [by apply Hcell|].
    apply at_assignment_in_bounds; [done|by rewrite <- Hc2|].
    intros v. apply Hsame.
  - intros Hord. assert (out = variables r2) as Hov by (by rewrite Hv2).
    split; [done|]. split; [by rewrite Hc2, Hov|].
    rewrite (combine_values _ _ _ _ Hr2), Hc2, <- Hov.
    apply tabulate_ext. intros idx Hidx.
    assert (in_bounds idx (cardinality r2)) as Hidx' by (by rewrite Hc2, <- Hov).
    rewrite Hov at 2 3. rewrite <- (combine_cell _ _ _ _ _ Hr2 Hidx').
    rewrite <- (Hcell idx Hidx'), <- Hov. f_equal. symmetry.
    apply at_assignment_assignment; [done|].
    apply Forall2_length in Hidx. rewrite length_fmap in Hidx. done.
Qed.

End product_vs_contraction.

(** ** Folding the product over several factors *)

Section several_factors.
Context {R : Type} `{Scalar R}.
Implicit Types (d : factor_fields R) (ds : list (factor_fields R)).

Lemma cards_from_items (c : string → nat) d :
  cards_from c d → card_items d = (λ v, (v, c v)) <$> variables d.
Proof. intros Hc. unfold card_items. by rewrite Hc, zip_fmap_diag. Qed.

Lemma cards_from_consistent ds :
  Forall factor_ok ds → cards_consistent ds → Forall (cards_from (card_in ds)) ds.
Proof.
  intros Hok Hcons. apply Forall_forall. intros d Hd. unfold cards_from.
  rewrite Forall_forall in Hok. specialize (Hok d Hd).
  rewrite <- (card_items_fst d), <- (card_items_snd d) by done.
  symmetry. apply card_in_items, Forall_forall. intros q Hq.
  unfold cards_consistent in Hcons. rewrite Forall_forall in Hcons.
  apply Hcons, list_elem_of_bind. by exists d.
Qed.

Lemma cards_from_agree (c : string → nat) d1 d2 :
  cards_from c d1 → cards_from c d2 → cards_agree d1 d2.
Proof.
  intros Hc1 Hc2. unfold cards_agree.
  rewrite (cards_from_items c d2) by done.
  apply Forall_fmap, Forall_forall. intros v _. simpl.
  unfold card_of, card_items. rewrite Hc1, lookup_zip_fmap.
  destruct (decide (v ∈ variables d1)); auto.
Qed.

Lemma names_length_from (c : string → nat) d v :
  factor_ok d → cards_from c d → v ∈ variables d →
  ∃ ns, state_names d !! v = Some ns ∧ length ns = c v.
Proof.
  intros Hok Hc Hv.
  destruct (proj2 (factor_ok_names d v Hok) Hv) as [ns Hns].
  exists ns. split; [done|].
  apply (factor_ok_names_length d v (c v) ns Hok); [|done].
  rewrite (cards_from_items c d Hc). by apply (list_elem_of_fmap_2 (λ v, (v, c v))).
Qed.

(** The product of two well-formed factors is a well-formed factor. *)
Lemma combine_ok (c : string → nat) op d1 d2 d :
  factor_ok d1 → factor_ok d2 → cards_from c d1 → cards_from c d2 →
  factor_combine op d1 d2 = inr d →
  factor_ok d ∧ cards_from c d.
Proof.
  intros Hok1 Hok2 Hc1 Hc2 Hd.
  destruct (combine_scope op d1 d2 d Hok1 Hok2 Hd) as (Hv & Hcard & Hlen & Hnd).
  assert (∀ v, v ∈ variables d ↔ v ∈ variables d1 ∨ v ∈ variables d2) as Hin.
  { intros v. rewrite Hv, elem_of_app, list_elem_of_filter.
    destruct (decide (v ∈ variables d1)); tauto. }
  assert (cards_from c d) as Hc.
  { unfold cards_from. rewrite Hcard. apply list_fmap_ext. intros i v Hi.
    apply list_elem_of_lookup_2, Hin in Hi.
    unfold card_in. rewrite bind_pair, (cards_from_items c d1), (cards_from_items c d2)
      by done.
    rewrite <- fmap_app, <- zip_fmap_diag, lookup_zip_fmap.
    rewrite decide_True; [done|]. by apply elem_of_app. }
  split; [|done].
  pose proof (combine_values op d1 d2 d Hd) as Hvals.
  assert (state_names d = state_names d2 ∪ state_names d1) as Hnames.
  { unfold factor_combine in Hd. destruct (decide (cards_agree d1 d2)); [|done].
    by injection Hd as <-. }
  split; [done|]. split; [done|].
  split; [by rewrite Hvals|]. split; [rewrite Hvals; apply tabulate_ok|].
  split.
  - rewrite Hnames, dom_union_L.
    destruct Hok1 as (_ & _ & _ & _ & -> & _).
    destruct Hok2 as (_ & _ & _ & _ & -> & _).
    apply set_eq. intros v.
    rewrite elem_of_union, !elem_of_list_to_set, Hin. tauto.
  - rewrite Hc, zip_fmap_diag. apply Forall_fmap, Forall_forall.
    intros v Hvd. simpl. rewrite Hnames.
    destruct (state_names d2 !! v) as [ns2|] eqn:Hn2.
    + rewrite (lookup_union_Some_l _ _ v ns2) by done. simpl. f_equal.
      assert (v ∈ variables d2) as Hv2 by (apply factor_ok_names; eauto).
      destruct (names_length_from c d2 v) as (ns & Hns & Hl); [done..|]. congruence.
    + rewrite lookup_union_r by done.
      assert (v ∈ variables d1) as Hv1.
      { apply Hin in Hvd as [?|Hv2]; [done|].
        apply (factor_ok_names d2 v Hok2) in Hv2 as [? ?]. congruence. }
      destruct (names_length_from c d1 v) as (ns & Hns & Hl); [done..|].
      rewrite Hns. simpl. by f_equal.
Qed.

Lemma at_assignment_bounded (c : string → nat) (ρ : gmap string nat)
    (vars : list string) :
  (∀ v, v ∈ vars → ∃ k, ρ !! v = Some k ∧ k < c v) →
  in_bounds (at_assignment ρ vars) (c <$> vars).
Proof.
  intros Hρ. unfold in_bounds, at_assignment.
  apply Forall2_fmap, Forall_Forall2_diag, Forall_forall. intros v Hv.
  destruct (Hρ v Hv) as (k & -> & Hk). done.
Qed.

(** The cell of a product at an assignment is the product of the cells. *)
Lemma combine_at (c : string → nat) op d1 d2 d (ρ : gmap string nat) :
  factor_ok d1 → factor_ok d2 → cards_from c d1 → cards_from c d2 →
  factor_combine op d1 d2 = inr d →
  (∀ v, v ∈ variables d → ∃ k, ρ !! v = Some k ∧ k < c v) →
  factor_at d ρ = op (factor_at d1 ρ) (factor_at d2 ρ).
Proof.
  intros Hok1 Hok2 Hc1 Hc2 Hd Hρ.
  destruct (combine_ok c op d1 d2 d) as [Hok Hc]; [done..|].
  destruct (combine_scope op d1 d2 d Hok1 Hok2 Hd) as (Hv & _).
  unfold factor_at at 1.
  rewrite (combine_cell op d1 d2 d _ Hd).
  - rewrite !factor_at_restrict; [done| |].
    + intros v Hv2. rewrite Hv, elem_of_app, list_elem_of_filter.
      destruct (decide (v ∈ variables d1)); auto.
    + intros v Hv1. rewrite Hv, elem_of_app. by left.
  - rewrite Hc. by apply at_assignment_bounded.
Qed.

Lemma scope_union_grows ds : ∀ vs v, v ∈ vs → v ∈ scope_union vs ds.
Proof.
  induction ds as [|d ds IH]; intros vs v Hv; [done|].
  simpl. apply IH, elem_of_app. by left.
Qed.

(** [functools.reduce] of the product over well-formed factors with
    consistent cardinalities returns; the result is well formed, its scope
    is the union in order of first appearance, and each of its cells is
    the fold of the operator over the cells of the operands. *)
Lemma reduce_combine (c : string → nat) op ds : ∀ d,
  factor_ok d → cards_from c d →
  Forall factor_ok ds → Forall (cards_from c) ds →
  ∃ r,
    reduce_fields (factor_combine op) d ds = inr r ∧
    factor_ok r ∧ cards_from c r ∧
    variables r = scope_union (variables d) ds ∧
    ∀ ρ : gmap string nat,
      (∀ v, v ∈ variables r → ∃ k, ρ !! v = Some k ∧ k < c v) →
      factor_at r ρ = foldl op (factor_at d ρ) ((λ d', factor_at d' ρ) <$> ds).
Proof.
  induction ds as [|d1 ds IH]; intros d Hok Hc Hoks Hcs.
  - exists d. split; [done|]. split; [done|]. split; [done|]. split; [done|].
    by intros.
  - apply Forall_cons in Hoks as [Hok1 Hoks]. apply Forall_cons in Hcs as [Hc1 Hcs].
    destruct (factor_combine_defined op d d1 (cards_from_agree c d d1 Hc Hc1))
      as [d' Hd'].
    destruct (combine_ok c op d d1 d' Hok Hok1 Hc Hc1 Hd') as [Hok' Hc'].
    destruct (IH d' Hok' Hc' Hoks Hcs) as (r & Hr & Hokr & Hcr & Hvr & Hcell).
    destruct (combine_scope op d d1 d' Hok Hok1 Hd') as (Hv' & _).
    exists r. unfold reduce_fields in *. simpl. rewrite Hd'.
    split; [done|]. split; [done|]. split; [done|].
    split; [by rewrite Hvr, Hv'|].
    intros ρ Hρ. rewrite (Hcell ρ Hρ). f_equal.
    apply (combine_at c); try done.
    intros v Hv. apply Hρ. rewrite Hvr. by apply scope_union_grows.
Qed.

Lemma assignment_bounded (c : string → nat) (vars : list string) (idx : list nat) :
  NoDup vars → in_bounds idx (c <$> vars) →
  ∀ v, v ∈ vars → ∃ k, assignment vars idx !! v = Some k ∧ k < c v.
Proof.
  intros Hnd Hb v Hv. apply list_elem_of_lookup in Hv as [i Hi].
  pose proof (Forall2_length _ _ _ Hb) as Hlen. rewrite length_fmap in Hlen.
  destruct (lookup_lt_is_Some_2 idx i) as [k Hk].
  { rewrite Hlen. by eapply lookup_lt_Some. }
  exists k. split; [by apply (lookup_assignment vars idx i)|].
  eapply (Forall2_lookup_lr _ _ _ i k (c v)) in Hb; [done..|].
  by rewrite list_lookup_fmap, Hi.
Qed.

Lemma log_fields_ok d : factor_ok d → factor_ok (log_fields d).
Proof.
  intros (Hlen & Hnd & Hsh & Hsz & Hdom & Hnames).
  unfold factor_ok, nd_ok in *. simpl. by rewrite length_fmap.
Qed.

Lemma elem_of_scope_union ds : ∀ vs v,
  v ∈ scope_union vs ds ↔ v ∈ vs ∨ ∃ d, d ∈ ds ∧ v ∈ variables d.
Proof.
  induction ds as [|d ds IH]; intros vs v.
  - split; [by left|]. intros [?|(d & Hd & _)]; [done|].
    by apply elem_of_nil in Hd.
  - simpl. rewrite IH, elem_of_app, list_elem_of_filter. split.
    + intros [[?|[_ ?]]|(d' & Hd' & ?)].
      * by left.
      * right. exists d. split; [by left | done].
      * right. exists d'. split; [by right | done].
    + intros [?|(d' & Hd' & Hv)]; [by left; left|].
      apply elem_of_cons in Hd' as [->|Hd'].
      * left. destruct (decide (v ∈ vs)); [by left | by right].
      * right. by exists d'.
Qed.

(** The pointwise product of a list of factors is what the fold of the
    factor product builds. *)
Lemma joint_is_product `{!ScalarLaws R} (c : string → nat) d ds :
  factor_ok d → cards_from c d →
  Forall factor_ok ds → Forall (cards_from c) ds →
  ∃ P,
    reduce_fields (factor_combine s_mul) d ds = inr P ∧
    factor_ok P ∧
    variables P = scope_union (variables d) ds ∧
    ∀ ρ : gmap string nat,
      (∀ v, v ∈ variables P → ∃ k, ρ !! v = Some k ∧ k < c v) →
      joint (d :: ds) ρ = factor_at P ρ.
Proof.
  intros Hok Hc Hoks Hcs.
  destruct (reduce_combine c s_mul ds d Hok Hc Hoks Hcs)
    as (P & HP & HokP & _ & HvP & Hcell).
  exists P. split; [done|]. split; [done|]. split; [done|].
  intros ρ Hρ. rewrite (Hcell ρ Hρ). unfold joint, prod_list.
  rewrite fmap_cons. simpl. by rewrite s_mul_1_l.
Qed.

End several_factors.

(** ** The marginal of the product *)

Section marginal_of_product.
Context {R : Type} `{Scalar R} `{!ScalarLaws R} `{Backend R} `{!BackendSpec R}.

(** C1.  For a non-empty list of factors that agree on the cardinality of
    the variables they share, and distinct output variables that all occur
    in some factor, [factor_sum_product] returns a new [DiscreteFactor]
    over [output_vars] whose cell at each index is the sum, over all
    assignments to the variables not in [output_vars], of the product of
    the cells the input factors have at the assignment; this product is
    also the cell, at the assignment, of the table that the fold of the
    factor product over the list builds.  In particular, for
    one factor over [A; B] with [n] rows of [m] cells and [output_vars =
    [A]], the values of the result are the [n] sums of the rows. *)
Theorem sum_product_is_marginal (s : state R) (out : list string)
    (args : list loc) (objs : list (pyobj R)) (ds : list (factor_fields R)) :
  refs s args objs → have_fields objs ds → ds ≠ [] →
  Forall factor_ok ds → cards_consistent ds → NoDup out →
  out ⊆ ds ≫= variables →
  ∃ phi s' r,
    factor_sum_product out args s = (inr phi, s') ∧
    heap s !! phi = None ∧
    heap s' !! phi = Some (PyObj DiscreteFactor (Some r)) ∧
    factor_ok r ∧
    variables r = out ∧
    cardinality r = card_in ds <$> out ∧
    (∀ oi, in_bounds oi (cardinality r) →
       nd_get (values r) oi = marginal out ds oi) ∧
    (∀ d0 ds', ds = d0 :: ds' →
       ∃ P, reduce_fields (factor_combine s_mul) d0 ds' = inr P ∧
            variables P = scope_union (variables d0) ds' ∧
            ∀ oi, in_bounds oi (cardinality r) →
              nd_get (values r) oi
              = sum_list ((λ si, factor_at P
                                   (assignment (out ++ hidden_vars out ds) (oi ++ si)))
                          <$> ndindex (card_in ds <$> hidden_vars out ds))) ∧
    (∀ A B n m cells names,
       ds = [Fields [A; B] [n; m] (NDArray [n; m] cells) names] → out = [A] →
       values r = NDArray [n] (row_sums n m cells)).
Proof.
  intros Hrefs Hds Hne Hok Hcons Hnd Hsub.
  destruct (sum_product_returns s out args objs ds) as (names' & Hnames & Hrun);
    [done..|].
  eexists _, _, _. split; [exact Hrun|]. simpl.
  split; [by apply lookup_ge_None_2|].
  split; [by rewrite lookup_app_r, Nat.sub_diag by lia|].
  split; [by apply result_ok|]. split; [done|]. split; [done|]. simpl.
  split; [intros oi Hoi; by apply nd_get_tabulate|].
  split.
  { intros d0 ds' ->.
    pose proof (cards_from_consistent _ Hok Hcons) as Hfrom.
    set (c := card_in (d0 :: ds')) in *.
    pose proof Hok as Hok'. pose proof Hfrom as Hfrom'.
    apply Forall_cons in Hok' as [Hok0 Hoks].
    apply Forall_cons in Hfrom' as [Hc0 Hcs].
    destruct (joint_is_product c d0 ds' Hok0 Hc0 Hoks Hcs)
      as (P & HP & _ & HvP & Hjoint).
    exists P. split; [done|]. split; [done|].
    intros oi Hoi. rewrite nd_get_tabulate by done. unfold marginal.
    f_equal. apply list_fmap_ext. intros i si Hsi. apply Hjoint.
    intros v Hv. apply assignment_bounded.
    - apply NoDup_app. split; [done|]. split.
      + intros u Hu [Hnu _]%list_elem_of_filter. done.
      + apply NoDup_filter, NoDup_remove_dups.
    - rewrite fmap_app. apply Forall2_app; [done|].
      apply elem_of_ndindex. by eapply list_elem_of_lookup_2.
    - rewrite HvP in Hv. apply elem_of_scope_union in Hv.
      assert (v ∈ (d0 :: ds') ≫= variables) as Hvin.
      { apply list_elem_of_bind. destruct Hv as [Hv|(d & Hd & Hv)].
        - exists d0. split; [done | by left].
        - exists d. split; [done | by right]. }
      apply elem_of_app. destruct (decide (v ∈ out)) as [?|Hnin]; [by left|].
      right. apply list_elem_of_filter. split; [done|].
      by apply elem_of_remove_dups. }
  intros A B n m cells names -> ->.
  apply Forall_inv in Hok. destruct Hok as (_ & HndAB & _). simpl in HndAB.
  assert (A ≠ B) as HAB.
  { apply NoDup_cons in HndAB as [HA _]. intros ->. apply HA. by left. }
  assert (hidden_vars [A] [Fields [A; B] [n; m] (NDArray [n; m] cells) names]
          = [B]) as Hhid.
  { unfold hidden_vars. simpl.
    destruct (decide_rel elem_of A [B]) as [Hin|_];
      [by apply list_elem_of_singleton in Hin|].
    rewrite filter_cons_False by (intros Hn; apply Hn; by left).
    rewrite filter_cons_True; [done|].
    intros ?%list_elem_of_singleton. congruence. }
  assert (card_in [Fields [A; B] [n; m] (NDArray [n; m] cells) names] A = n) as HcA.
  { unfold card_in. simpl. by rewrite lookup_insert_eq. }
  assert (card_in [Fields [A; B] [n; m] (NDArray [n; m] cells) names] B = m) as HcB.
  { unfold card_in. simpl. rewrite lookup_insert_ne by done.
    by rewrite lookup_insert_eq. }
  assert (∀ (f : string → nat) x, f <$> [x] = [f x]) as Hone by done.
  unfold tabulate. rewrite Hone, HcA. f_equal.
  rewrite ndindex_one, <- list_fmap_compose. unfold row_sums.
  apply list_fmap_ext. intros _ a _. cbv beta. unfold compose.
  unfold marginal. rewrite Hhid, Hone, HcB.
  rewrite ndindex_one, <- list_fmap_compose. f_equal.
  apply list_fmap_ext. intros _ b _. unfold compose.
  unfold joint, prod_list. simpl. rewrite s_mul_1_l.
  unfold factor_at, nd_get, at_assignment, assignment. simpl.
  rewrite lookup_insert_eq, lookup_insert_ne, lookup_insert_eq by done. simpl.
  do 2 f_equal. lia.
Qed.

End marginal_of_product.

(** ** The log-domain sum *)

Section log_sum.
Context {R : Type} `{Scalar R}.


End log_sum.

(** ** The reference backend and the integers meet the interfaces *)

#[export] Instance Z_scalar_laws : ScalarLaws Z.
Proof. split; intros x; simpl; lia. Qed.

#[export] Instance reference_backend_spec : BackendSpec Z.
Proof.
  intros ops out Hne Hok Hnd Hsub. unfold contract, reference_backend, reference_contract.
  destruct ops as [|p ops]; [done|]. by rewrite decide_True.
Qed.

(** ** The examples of the docstrings *)

(** The product of lines 38-63: scope, cardinality and the 2x3x2x2 array. *)
Example factor_product_docstring :
  ∃ s' names,
    factor_product [0; 1] doc_store = (inr 4, s') ∧
    heap s' !! 4
    = Some (PyObj DiscreteFactor (Some
        (Fields ["x1"; "x2"; "x3"; "x4"] [2; 3; 2; 2]
           (NDArray [2; 3; 2; 2]
              [0; 0; 4; 6; 0; 4; 12; 18; 0; 8; 20; 30;
               6; 18; 35; 49; 8; 24; 45; 63; 10; 30; 55; 77]%Z)
           names))).
Proof. eexists _, _. split; vm_compute; reflexivity. Qed.

(** The quotient of lines 161-175, twelve times over: 0, 1/3, 2, 1, 4, 5/3
    in the first block and 3, 7/4, 4, 9/4, 5, 11/4 in the second. *)
Example factor_divide_docstring :
  ∃ s' names,
    factor_divide 2 3 doc_store = (inr 4, s') ∧
    heap s' !! 4
    = Some (PyObj DiscreteFactor (Some
        (Fields ["x1"; "x2"; "x3"] [2; 3; 2]
           (NDArray [2; 3; 2]
              [0; 4; 24; 12; 48; 20; 36; 21; 48; 27; 60; 33]%Z)
           names))).
Proof. eexists _, _. split; vm_compute; reflexivity. Qed.

(** The same product through the contraction, and a marginal of it. *)
Example factor_sum_product_docstring_product :
  ∃ s' names,
    factor_sum_product ["x1"; "x2"; "x3"; "x4"] [0; 1] doc_store = (inr 4, s') ∧
    heap s' !! 4
    = Some (PyObj DiscreteFactor (Some
        (Fields ["x1"; "x2"; "x3"; "x4"] [2; 3; 2; 2]
           (NDArray [2; 3; 2; 2]
              [0; 0; 4; 6; 0; 4; 12; 18; 0; 8; 20; 30;
               6; 18; 35; 49; 8; 24; 45; 63; 10; 30; 55; 77]%Z)
           names))).
Proof. eexists _, _. split; vm_compute; reflexivity. Qed.

(** ** The theorems at work on the small store *)

Lemma sum_product_is_marginal_witness :
  ∃ phi s' r,
    factor_sum_product ["A"] [0] store = (inr phi, s') ∧
    heap s' !! phi = Some (PyObj DiscreteFactor (Some r)) ∧
    values r = NDArray [2] [6; 15]%Z.
Proof.
  destruct (sum_product_is_marginal store ["A"] [0]
              [PyObj DiscreteFactor (Some phi_AB)] [phi_AB])
    as (phi & s' & r & Hrun & _ & Hphi & _ & _ & _ & _ & _ & Hrows).
  - by repeat constructor.
  - by repeat constructor.
  - done.
  - constructor; [compute_done | constructor].
  - unfold cards_consistent. compute_done.
  - compute_done.
  - compute_done.
  - exists phi, s', r. split; [exact Hrun|]. split; [exact Hphi|].
    rewrite (Hrows "A" "B" 2 3 [1; 2; 3; 4; 5; 6]%Z (state_names phi_AB));
      reflexivity.
Defined.

Lemma guard_runs_first_witness :
  factor_product [0; 3] store
  = (inl (NotImplementedError
       "All the args are expected to be instances of the same factor class."),
     store) ∧
  factor_divide 0 5 store
  = (inl (TypeError "phi1 and phi2 should be factors instances"), store).
Proof.
  split.
  - destruct (guard_runs_first store [0; 3]
                [PyObj DiscreteFactor (Some phi_AB); PyObj SparseFactor (Some phi_B')])
      as (Hp & _ & _); [by repeat constructor|].
    rewrite Hp. reflexivity.
  - destruct (guard_runs_first store [0; 5]
                [PyObj DiscreteFactor (Some phi_AB); PyObj (PyType "NoneType" false) None])
      as (_ & _ & Hd); [by repeat constructor|].
    rewrite (Hd 0 5 eq_refl). reflexivity.
Defined.

(** C2, as stated, fails on [factor_sum_product]: it accepts an operand
    that is no [BaseFactor], and operands of two different factor classes,
    and returns a factor; and to an operand without the attributes it
    answers with an [AttributeError], before the contraction, not with the
    type error of the guard. *)
Lemma sum_product_has_no_guard :
  tp_base_factor Table = false ∧
  DiscreteFactor ≠ SparseFactor ∧
  (∃ phi s', factor_sum_product ["A"; "B"] [0; 4] store = (inr phi, s')) ∧
  (∃ phi s', factor_sum_product ["A"; "B"] [0; 3] store = (inr phi, s')) ∧
  factor_sum_product ["A"; "B"] [0; 5] store
  = (inl (AttributeError "state_names"), store).
Proof.
  split; [done|]. split; [done|].
  split; [eexists _, _; vm_compute; reflexivity|].
  split; [eexists _, _; vm_compute; reflexivity|].
  vm_compute. reflexivity.
Qed.

Lemma sum_product_over_union_is_product_witness :
  ∃ l1 s1 r1 l2 s2 r2,
    factor_sum_product ["A"; "B"] [0; 2] store = (inr l1, s1) ∧
    heap s1 !! l1 = Some (PyObj DiscreteFactor (Some r1)) ∧
    factor_product [0; 2] store = (inr l2, s2) ∧
    heap s2 !! l2 = Some (PyObj DiscreteFactor (Some r2)) ∧
    variables r1 = variables r2 ∧ cardinality r1 = cardinality r2 ∧
    values r1 = values r2.
Proof.
  destruct (sum_product_over_union_is_product store 0 2
              (PyObj DiscreteFactor (Some phi_AB)) (PyObj DiscreteFactor (Some phi_B'))
              phi_AB phi_B' ["A"; "B"])
    as (l1 & s1 & r1 & l2 & s2 & r2 & H1 & Hl1 & H2 & Hl2 & _ & _ & _ & Hsame).
  - reflexivity.
  - reflexivity.
  - reflexivity.
  - reflexivity.
  - reflexivity.
  - reflexivity.
  - compute_done.
  - compute_done.
  - unfold cards_agree. compute_done.
  - compute_done.
  - intros v. change (variables phi_AB) with ["A"; "B"].
    change (variables phi_B') with ["B"].
    rewrite !elem_of_cons, !elem_of_nil. tauto.
  - exists l1, s1, r1, l2, s2, r2. destruct (Hsame eq_refl) as (Hv & Hc & Hval).
    split; [exact H1|]. split; [exact Hl1|]. split; [exact H2|].
    split; [exact Hl2|]. split; [exact Hv|]. split; [exact Hc | exact Hval].
Defined.

Lemma product_of_one_is_a_copy_witness :
  ∃ phi' s',
    factor_product [0] store = (inr phi', s') ∧
    phi' ≠ 0 ∧
    heap s' !! phi' = Some (PyObj DiscreteFactor (Some phi_AB)) ∧
    heap s' !! 0 = Some (PyObj DiscreteFactor (Some phi_AB)).
Proof.
  destruct (product_of_one_is_a_copy store 0 (PyObj DiscreteFactor (Some phi_AB)) phi_AB)
    as (phi' & s' & Hrun & Hne & _ & Hnew & Hold & _).
  - reflexivity.
  - reflexivity.
  - reflexivity.
  - exists phi', s'. split; [exact Hrun|]. split; [exact Hne|].
    split; [exact Hnew | exact Hold].
Defined.

Lemma later_state_names_win_witness :
  ∃ phi s' r,
    factor_sum_product ["A"; "B"] [0; 1] store = (inr phi, s') ∧
    heap s' !! phi = Some (PyObj DiscreteFactor (Some r)) ∧
    state_names r !! "B" = Some ["low"; "mid"; "high"].
Proof.
  destruct (later_state_names_win store ["A"; "B"] [0; 1]
              [PyObj DiscreteFactor (Some phi_AB); PyObj DiscreteFactor (Some phi_B)]
              [phi_AB] phi_B [] "B")
    as (phi & s' & r & Hrun & Hphi & _ & Hnames).
  - by repeat constructor.
  - by repeat constructor.
  - constructor; [compute_done|]. constructor; [compute_done | constructor].
  - unfold cards_consistent. compute_done.
  - compute_done.
  - compute_done.
  - compute_done.
  - compute_done.
  - intros d' Hd'. by apply elem_of_nil in Hd'.
  - exists phi, s', r. split; [exact Hrun|]. split; [exact Hphi|].
    rewrite Hnames. reflexivity.
Defined.


Lemma type_guards_reject_witness :
  factor_log_sum [0; 5] store
  = (inl (TypeError "Arguments must be log factors"), store) ∧
  factor_divide 0 3 store
  = (inl (NotImplementedError
       "All the args are expected to be instances of the same factor class."),
     store).
Proof.
  split.
  - destruct (type_guards_reject store [0; 5]
                [PyObj DiscreteFactor (Some phi_AB); PyObj (PyType "NoneType" false) None])
      as [Hinvalid _]; [by repeat constructor|].
    destruct Hinvalid as (_ & Hlog & _); [|exact Hlog].
    apply Exists_cons_tl, Exists_cons_hd. reflexivity.
  - destruct (type_guards_reject store [0; 3]
                [PyObj DiscreteFactor (Some phi_AB); PyObj SparseFactor (Some phi_B')])
      as [_ Hmixed]; [by repeat constructor|].
    destruct Hmixed as (_ & _ & Hdiv).
    + by repeat constructor.
    + exists (PyObj DiscreteFactor (Some phi_AB)), (PyObj SparseFactor (Some phi_B')).
      split; [by left|]. split; [right; by left | done].
    + exact (Hdiv 0 3 eq_refl).
Defined.

Lemma divide_allocates_fresh_witness :
  ∃ r s',
    factor_divide 0 2 store = (r, s') ∧
    heap s' !! 0 = Some (PyObj DiscreteFactor (Some phi_AB)) ∧
    heap s' !! 2 = Some (PyObj DiscreteFactor (Some phi_B')) ∧
    ∃ phi, r = inr phi.
Proof.
  destruct (divide_allocates_fresh store 0 2
              (PyObj DiscreteFactor (Some phi_AB)) (PyObj DiscreteFactor (Some phi_B'))
              phi_AB phi_B')
    as (r & s' & Hrun & _ & H0 & H2 & _ & Hret).
  - reflexivity.
  - reflexivity.
  - reflexivity.
  - reflexivity.
  - reflexivity.
  - reflexivity.
  - exists r, s'. split; [exact Hrun|]. split; [exact H0|]. split; [exact H2|].
    apply Hret.
    + compute_done.
    + unfold cards_agree. compute_done.
Defined.


(** * Part III: further properties of base.py *)

(** ** The fold of [factor_product] *)

Section product_fold.
Context {R : Type} `{Scalar R}.

Lemma method_binary_inv (s s1 : state R) ev sym f phi1 phi2 l :
  method_binary ev sym f phi1 phi2 s = (inr l, s1) →
  ∃ o1 o2 d1 d2 d,
    heap s !! phi1 = Some o1 ∧ heap s !! phi2 = Some o2 ∧
    ob_fields o1 = Some d1 ∧ ob_fields o2 = Some d2 ∧
    f d1 d2 = inr d ∧ l = length (heap s) ∧
    s1 = State (heap s ++ [PyObj (ob_type o1) (Some d)]) (calls s ++ [ev]).
Proof.
  unfold method_binary. rewrite run_bind. simpl. rewrite run_bind.
  unfold deref at 1. simpl.
  destruct (heap s !! phi1) as [o1|] eqn:H1; [|done].
  rewrite run_bind. unfold deref at 1. simpl.
  destruct (heap s !! phi2) as [o2|] eqn:H2; [|done].
  destruct (ob_fields o1) as [d1|] eqn:Hd1; [|by destruct (ob_fields o2)].
  destruct (ob_fields o2) as [d2|] eqn:Hd2; [|done].
  rewrite run_bind. unfold lift at 1.
  destruct (f d1 d2) as [e|d] eqn:Hf; [done|].
  unfold alloc. simpl. intros [= <- <-].
  by exists o1, o2, d1, d2, d.
Qed.

(** X1.  [factor_product] folds from the left: on three or more factors
    of one class, multiplying all of them is multiplying the product of the
    first two with the rest, with the same result, the same error and the
    same store. *)
Theorem factor_product_folds_left (s : state R) (a b : loc) (rest : list loc)
    (objs : list (pyobj R)) (t : pytype) :
  rest ≠ [] → refs s (a :: b :: rest) objs →
  tp_base_factor t = true → Forall (λ o, ob_type o = t) objs →
  factor_product (a :: b :: rest) s
  = match factor_product [a; b] s with
    | (inr l, s1) => factor_product (l :: rest) s1
    | (inl e, s1) => (inl e, s1)
    end.
Proof.
  intros Hne Hrefs Hbase Hty.
  pose proof Hrefs as Hrefs'.
  apply Forall2_cons_inv_l in Hrefs' as (oa & objs1 & Ha & Hrefs1 & ->).
  apply Forall2_cons_inv_l in Hrefs1 as (ob & objs2 & Hb & Hrefs2 & ->).
  apply Forall_cons in Hty as [Hta Hty]. apply Forall_cons in Hty as [Htb Hty].
  rewrite (factor_product_guarded _ _ _ Hrefs).
  rewrite (guard_passes _ t); [|done|done|].
  2:{ apply Forall_fmap. by repeat (constructor; [done|]). }
  assert (refs s [a; b] [oa; ob]) as Hab by (by repeat constructor).
  rewrite (factor_product_guarded _ _ _ Hab).
  rewrite (guard_passes _ t); [|done|done|by repeat constructor].
  unfold py_reduce. simpl. rewrite !run_bind.
  destruct (method_mul a b s) as [[e|l] s1] eqn:Hmul; [done|].
  rewrite run_ret.
  apply method_binary_inv in Hmul
    as (o1 & o2 & d1 & d2 & d & H1 & H2 & Hd1 & Hd2 & Hf & -> & ->).
  assert (o1 = oa) as -> by congruence.
  set (s1 := State (heap s ++ [PyObj (ob_type oa) (Some d)])
                   (calls s ++ [CallMul a b])).
  assert (refs s1 (length (heap s) :: rest)
            (PyObj (ob_type oa) (Some d) :: objs2)) as Hrefs3.
  { constructor.
    - simpl. by rewrite lookup_app_r, Nat.sub_diag by lia.
    - eapply refs_extend; [|done]. by apply prefix_app_r. }
  rewrite (factor_product_guarded _ _ _ Hrefs3).
  rewrite (guard_passes _ t); [|done|done|].
  2:{ apply Forall_fmap. constructor; [done|]. done. }
  destruct rest as [|c rest]; [done|]. done.
Qed.

End product_fold.

(** ** The product of several factors *)

Section product_of_several.
Context {R : Type} `{Scalar R}.

Lemma reduce_fields_step
    (f : factor_fields R → factor_fields R → exn + factor_fields R) d d1 ds dr :
  reduce_fields f d (d1 :: ds) = inr dr →
  ∃ d', f d d1 = inr d' ∧ reduce_fields f d' ds = inr dr.
Proof.
  unfold reduce_fields. simpl. destruct (f d d1) as [e|d'] eqn:Hf.
  - by rewrite reduce_fields_raised.
  - intros Hr. by exists d'.
Qed.

(** A fold that succeeds makes one call and one new object per operand,
    in order, each on the result of the one before. *)
Lemma run_fold_binary_exact (ev : loc → loc → event) (sym : string)
    (f : factor_fields R → factor_fields R → exn + factor_fields R)
    (rest : list loc) :
  ∀ (objs : list (pyobj R)) ds (s : state R) acc o d dr,
  heap s !! acc = Some o → ob_fields o = Some d →
  refs s rest objs → have_fields objs ds →
  reduce_fields f d ds = inr dr →
  ∃ l s',
    foldlM (λ a b, method_binary (ev a b) sym f a b) acc rest s = (inr l, s') ∧
    heap s `prefix_of` heap s' ∧
    length (heap s') = length (heap s) + length rest ∧
    calls s' = calls s ++ zip_with ev (acc :: seq (length (heap s)) (length rest)) rest ∧
    heap s' !! l = Some (PyObj (ob_type o) (Some dr)) ∧
    (rest ≠ [] → S l = length (heap s')).
Proof.
  induction rest as [|phi rest IH]; intros objs ds s acc o d dr Hacc Hd Hrefs Hds Hr.
  - apply Forall2_nil_inv_l in Hrefs as ->. apply Forall2_nil_inv_l in Hds as ->.
    injection Hr as <-. exists acc, s. simpl.
    split; [done|]. split; [done|]. split; [lia|].
    split; [by rewrite app_nil_r|]. split; [by rewrite pyobj_eta|done].
  - apply Forall2_cons_inv_l in Hrefs as (o1 & objs' & Hl & Hrefs & ->).
    apply Forall2_cons_inv_l in Hds as (d1 & ds' & Hd1 & Hds & ->).
    apply reduce_fields_step in Hr as (d' & Hf & Hr).
    simpl. rewrite run_bind.
    rewrite (run_method_binary _ _ _ _ _ _ _ _ _ _ Hacc Hl Hd Hd1), Hf.
    set (s1 := State (heap s ++ [PyObj (ob_type o) (Some d')])
                     (calls s ++ [ev acc phi])).
    destruct (IH objs' ds' s1 (length (heap s)) (PyObj (ob_type o) (Some d')) d' dr)
      as (l & s' & Hrun & Hpre & Hlen & Hcalls & Hlook & Hlast).
    + simpl. by rewrite lookup_app_r, Nat.sub_diag by lia.
    + done.
    + eapply refs_extend; [|done]. by apply prefix_app_r.
    + done.
    + done.
    + exists l, s'. split; [done|].
      split; [etrans; [|done]; by apply prefix_app_r|].
      simpl in Hlen, Hcalls. rewrite length_app in Hlen, Hcalls. simpl in Hlen, Hcalls.
      split; [lia|]. split.
      { rewrite Hcalls, <- app_assoc. simpl. by rewrite Nat.add_1_r. }
      split; [done|]. intros _.
      destruct rest as [|phi' rest'].
      * simpl in Hrun. injection Hrun as <- <-. simpl. rewrite length_app. simpl. lia.
      * by apply Hlast.
Qed.

(** X2.  For two or more well-formed factors of one class that agree on
    the cardinality of shared variables, [factor_product] returns.  It makes
    one multiplication and one new object per operand after the first, from
    left to right, and changes no object of the store; the result is the
    last new object, a well-formed factor over the union of the scopes in
    order of first appearance, with the cardinalities the operands give
    them, and each of its cells is the product of the cells the operands
    have at that assignment. *)
Theorem factor_product_of_several (s : state R) (a b : loc) (rest : list loc)
    (objs : list (pyobj R)) (d0 d1 : factor_fields R)
    (ds : list (factor_fields R)) (t : pytype) :
  refs s (a :: b :: rest) objs → have_fields objs (d0 :: d1 :: ds) →
  tp_base_factor t = true → Forall (λ o, ob_type o = t) objs →
  Forall factor_ok (d0 :: d1 :: ds) → cards_consistent (d0 :: d1 :: ds) →
  ∃ l s' P,
    factor_product (a :: b :: rest) s = (inr l, s') ∧
    heap s `prefix_of` heap s' ∧
    length (heap s') = length (heap s) + S (length rest) ∧
    S l = length (heap s') ∧
    calls s' = calls s ++ zip_with CallMul (a :: seq (length (heap s)) (S (length rest)))
                                           (b :: rest) ∧
    heap s' !! l = Some (PyObj t (Some P)) ∧
    factor_ok P ∧
    variables P = scope_union (variables d0) (d1 :: ds) ∧
    cardinality P = card_in (d0 :: d1 :: ds) <$> variables P ∧
    ∀ idx, in_bounds idx (cardinality P) →
      nd_get (values P) idx
      = foldl s_mul (factor_at d0 (assignment (variables P) idx))
          ((λ d, factor_at d (assignment (variables P) idx)) <$> d1 :: ds).
Proof.
  intros Hrefs Hds Hbase Hty Hok Hcons.
  pose proof (cards_from_consistent _ Hok Hcons) as Hfrom.
  set (c := card_in (d0 :: d1 :: ds)) in *.
  pose proof Hok as Hok'. pose proof Hfrom as Hfrom'.
  apply Forall_cons in Hok' as [Hok0 Hoks].
  apply Forall_cons in Hfrom' as [Hc0 Hcs].
  destruct (reduce_combine c s_mul (d1 :: ds) d0 Hok0 Hc0 Hoks Hcs)
    as (P & HP & HokP & HcP & HvP & Hcell).
  rewrite (factor_product_guarded _ _ _ Hrefs).
  pose proof Hrefs as Hrefs'.
  apply Forall2_cons_inv_l in Hrefs' as (oa & objs1 & Ha & Hrefs1 & ->).
  rewrite (guard_passes _ t); [|done|done|by apply Forall_fmap].
  apply Forall2_cons_inv_l in Hds as (da & ds1 & Hda & Hds1 & [= <- <-]).
  apply Forall_cons in Hty as [Hta Hty].
  unfold py_reduce.
  destruct (run_fold_binary_exact CallMul "*" (factor_combine s_mul) (b :: rest)
              objs1 (d1 :: ds) s a oa d0 P Ha Hda Hrefs1 Hds1 HP)
    as (l & s' & Hrun & Hpre & Hlen & Hcalls & Hlook & Hlast).
  exists l, s', P. split; [exact Hrun|]. split; [done|].
  split; [exact Hlen|]. split; [by apply Hlast|]. split; [exact Hcalls|].
  split; [by rewrite <- Hta|]. split; [done|]. split; [done|].
  split; [exact HcP|].
  intros idx Hidx.
  pose proof (factor_ok_NoDup _ HokP) as Hnd.
  assert (length (variables P) = length idx) as Hlenidx.
  { apply Forall2_length in Hidx. rewrite Hidx. symmetry. by apply factor_ok_length. }
  rewrite <- (at_assignment_assignment (variables P) idx) at 1 by done.
  fold (factor_at P (assignment (variables P) idx)).
  apply Hcell, assignment_bounded; [done|]. by rewrite <- HcP.
Qed.

End product_of_several.

(** ** What [factor_sum_product] does to the store *)

Lemma dict_comp_first (names : gmap string (list string))
    (pre : list string) (v : string) (post : list string) :
  (∀ u, u ∈ pre → is_Some (names !! u)) → names !! v = None →
  ∀ acc, dict_comp names (pre ++ v :: post) acc = inl (KeyError v).
Proof.
  induction pre as [|w pre IH]; intros Hpre Hv acc.
  - simpl. by rewrite Hv.
  - simpl. destruct (Hpre w) as [ns Hns]; [by left|]. rewrite Hns.
    apply IH; [|done]. intros u Hu. apply Hpre. by right.
Qed.

Lemma dict_comp_inv (names : gmap string (list string)) (out : list string) :
  ∀ acc m, dict_comp names out acc = inr m →
  (∀ u, u ∈ out → is_Some (names !! u)) ∧
  ∀ u, m !! u = if decide (u ∈ out) then names !! u else acc !! u.
Proof.
  intros acc m Hm.
  assert (∀ u, u ∈ out → is_Some (names !! u)) as Hknown.
  { intros u Hu. destruct (names !! u) eqn:Hnu; [done|].
    destruct (dict_comp_KeyError names out u Hu Hnu acc) as (w & Hw & _).
    congruence. }
  split; [done|].
  destruct (dict_comp_lookup names out acc Hknown) as (m' & Hm' & Hlook).
  assert (m' = m) as -> by congruence. done.
Qed.

Section sum_product_effects.
Context {R : Type} `{Scalar R} `{Backend R}.

Lemma sum_product_result (s : state R) (out : list string)
    (args : list loc) (objs : list (pyobj R)) (ds : list (factor_fields R)) :
  refs s args objs → have_fields objs ds →
  ∃ r s',
    factor_sum_product out args s = (r, s') ∧
    calls s' = calls s ++ [CallContract] ∧
    (∀ e, r = inl e → heap s' = heap s) ∧
    (∀ l, r = inr l →
       l = length (heap s) ∧
       ∃ vals d,
         contract (einsum_expr_of ds) out = inr vals ∧
         heap s' = heap s ++ [PyObj DiscreteFactor (Some d)] ∧
         variables d = out ∧
         cardinality d = shape vals ∧
         data (values d) = data vals ∧
         dom (state_names d) = list_to_set out ∧
         ∀ u, u ∈ out → state_names d !! u = merge_names ds !! u).
Proof.
  intros Hrefs Hds.
  rewrite (factor_sum_product_run _ _ _ _ _ Hrefs Hds). cbv zeta.
  destruct (contract (einsum_expr_of ds) out) as [e|vals] eqn:Hc.
  { eexists _, _. split; [done|]. split; [done|]. split; [done|]. by intros l [=]. }
  destruct (dict_comp (merge_names ds) out ∅) as [e|names'] eqn:Hcomp.
  { eexists _, _. split; [done|]. split; [done|]. split; [done|]. by intros l [=]. }
  unfold DiscreteFactor_init. cbv zeta.
  destruct (decide (factor_ok _)) as [Hok|_].
  2:{ eexists _, _. split; [done|]. split; [done|]. split; [done|]. by intros l [=]. }
  eexists _, _. split; [done|]. simpl. split; [done|].
  split; [by intros e [=]|].
  intros l [= <-]. split; [done|].
  destruct (dict_comp_inv _ _ _ _ Hcomp) as [Hknown Hlook].
  eexists vals, _. split; [done|]. split; [done|]. simpl.
  split; [done|]. split; [done|]. split; [done|]. split.
  - by destruct Hok as (_ & _ & _ & _ & Hdom & _).
  - intros u Hu. by rewrite Hlook, decide_True.
Qed.

(** X3.  Whatever the backend does, [factor_sum_product] on operands that
    have the attributes calls the contraction exactly once and changes no
    object of the store.  When it raises, the store holds the same objects;
    when it returns, the result is the one new object, a [DiscreteFactor]
    whatever the classes of the operands, whose variables are
    [output_vars], whose cardinality is the shape of the array the backend
    returned, and whose state names are the merged state names of exactly
    the requested variables: those of the variables summed out are
    dropped. *)
Theorem factor_sum_product_effects (s : state R) (out : list string)
    (args : list loc) (objs : list (pyobj R)) (ds : list (factor_fields R)) :
  refs s args objs → have_fields objs ds →
  ∃ r s',
    factor_sum_product out args s = (r, s') ∧
    calls s' = calls s ++ [CallContract] ∧
    (∀ e, r = inl e → heap s' = heap s) ∧
    (∀ l, r = inr l →
       l = length (heap s) ∧
       ∃ vals d,
         contract (einsum_expr_of ds) out = inr vals ∧
         heap s' = heap s ++ [PyObj DiscreteFactor (Some d)] ∧
         variables d = out ∧
         cardinality d = shape vals ∧
         data (values d) = data vals ∧
         dom (state_names d) = list_to_set out ∧
         ∀ u, u ∈ out → state_names d !! u = merge_names ds !! u).
Proof. apply sum_product_result. Qed.

Lemma run_merge_missing (args : list loc) (objs : list (pyobj R)) (s : state R) :
  refs s args objs → Exists (λ o, ob_fields o = None) objs →
  ∀ acc,
  foldlM (λ acc phi, d ← getattr "state_names" phi; mret (state_names d ∪ acc))
         acc args s
  = (inl (AttributeError "state_names"), s).
Proof.
  induction 1 as [|l o args objs Hl _ IH]; intros Hex acc.
  - by apply Exists_nil in Hex.
  - simpl. rewrite run_bind, run_bind. unfold getattr at 1.
    rewrite run_bind, (run_deref _ _ _ Hl).
    destruct (ob_fields o) as [d|] eqn:Hd.
    + rewrite run_ret, run_ret. apply IH.
      apply Exists_cons in Hex as [?|?]; [congruence | done].
    + done.
Qed.

(** X4.  When one of the operands has no factor attributes,
    [factor_sum_product] raises the [AttributeError] of the first loop, on
    [state_names]: the backend has not been called and the store is as it
    was. *)
Theorem factor_sum_product_without_attributes (s : state R) (out : list string)
    (args : list loc) (objs : list (pyobj R)) :
  refs s args objs → Exists (λ o, ob_fields o = None) objs →
  factor_sum_product out args s = (inl (AttributeError "state_names"), s).
Proof.
  intros Hrefs Hex. unfold factor_sum_product.
  by rewrite run_bind, (run_merge_missing _ _ _ Hrefs Hex).
Qed.

(** X5.  When the backend returns, the [KeyError] of line 120 names the
    first of the requested variables, in the order of [output_vars], that
    no input factor has state names for; the contraction has been made and
    no object has been built. *)
Theorem first_unknown_variable_is_named (s : state R) (pre : list string)
    (v : string) (post : list string) (args : list loc)
    (objs : list (pyobj R)) (ds : list (factor_fields R)) (vals : ndarray R) :
  refs s args objs → have_fields objs ds →
  (∀ u, u ∈ pre → ∃ d, d ∈ ds ∧ is_Some (state_names d !! u)) →
  (∀ d, d ∈ ds → state_names d !! v = None) →
  contract (einsum_expr_of ds) (pre ++ v :: post) = inr vals →
  factor_sum_product (pre ++ v :: post) args s
  = (inl (KeyError v), State (heap s) (calls s ++ [CallContract])).
Proof.
  intros Hrefs Hds Hpre Hv Hc.
  rewrite (factor_sum_product_run _ _ _ _ _ Hrefs Hds). cbv zeta.
  rewrite Hc, dict_comp_first; [done| |by apply merge_names_None].
  intros u Hu. destruct (Hpre u Hu) as (d & Hd & Hsome).
  by eapply merge_names_is_Some.
Qed.

End sum_product_effects.

(** ** The order of the factors and the state names *)

Section names_order.
Context {R : Type}.
Implicit Types (ds : list (factor_fields R)).

Lemma merge_names_None_inv ds v (d : factor_fields R) :
  merge_names ds !! v = None → d ∈ ds → state_names d !! v = None.
Proof.
  intros Hnone Hd. destruct (state_names d !! v) as [ns|] eqn:Hns; [|done].
  destruct (merge_names_is_Some ds d v Hd) as [ns' Hns']; [by rewrite Hns|].
  congruence.
Qed.

(** When the factors agree on the state names of shared variables, the
    merge of lines 104-106 does not depend on their order. *)
Lemma merge_names_perm ds ds' :
  ds ≡ₚ ds' → names_consistent ds → merge_names ds = merge_names ds'.
Proof.
  intros Hperm Hcons. apply map_eq. intros v.
  destruct (merge_names ds !! v) as [ns|] eqn:Hm.
  - apply merge_names_Some_inv in Hm as (d & Hd & Hns).
    destruct (merge_names_is_Some ds' d v) as [ns' Hns'];
      [by rewrite <- Hperm | by rewrite Hns |].
    rewrite Hns'. f_equal.
    apply merge_names_Some_inv in Hns' as (d' & Hd' & Hns'').
    rewrite <- Hperm in Hd'. by eapply (Hcons d d' v).
  - symmetry. apply merge_names_None. intros d Hd. rewrite <- Hperm in Hd.
    by eapply merge_names_None_inv.
Qed.

End names_order.

Section names_order_run.
Context {R : Type} `{Scalar R} `{Backend R}.

(** X6.  When the input factors agree on the state names of the variables
    they share, the state names of the result of [factor_sum_product] do
    not depend on the order in which the factors are given. *)
Theorem state_names_do_not_depend_on_order (s s1 s1' : state R)
    (out : list string) (args args' : list loc) (objs objs' : list (pyobj R))
    (ds ds' : list (factor_fields R)) (l l' : loc) :
  refs s args objs → have_fields objs ds →
  refs s args' objs' → have_fields objs' ds' →
  ds ≡ₚ ds' → names_consistent ds →
  factor_sum_product out args s = (inr l, s1) →
  factor_sum_product out args' s = (inr l', s1') →
  ∃ d d',
    heap s1 !! l = Some (PyObj DiscreteFactor (Some d)) ∧
    heap s1' !! l' = Some (PyObj DiscreteFactor (Some d')) ∧
    state_names d = state_names d'.
Proof.
  intros Hrefs Hds Hrefs' Hds' Hperm Hcons Hrun Hrun'.
  destruct (sum_product_result s out args objs ds Hrefs Hds)
    as (r & s2 & Hr & _ & _ & Hret).
  rewrite Hrun in Hr. injection Hr as <- <-.
  destruct (Hret l eq_refl) as (-> & vals & d & _ & Hheap & _ & _ & _ & Hdom & Hlook).
  destruct (sum_product_result s out args' objs' ds' Hrefs' Hds')
    as (r' & s2' & Hr' & _ & _ & Hret').
  rewrite Hrun' in Hr'. injection Hr' as <- <-.
  destruct (Hret' l' eq_refl)
    as (-> & vals' & d' & _ & Hheap' & _ & _ & _ & Hdom' & Hlook').
  exists d, d'.
  split; [by rewrite Hheap, lookup_app_r, Nat.sub_diag by lia|].
  split; [by rewrite Hheap', lookup_app_r, Nat.sub_diag by lia|].
  apply map_eq. intros u. destruct (decide (u ∈ out)) as [Hu|Hu].
  - by rewrite Hlook, Hlook', (merge_names_perm ds ds').
  - assert (u ∉ dom (state_names d)) as Hn
      by (by rewrite Hdom, elem_of_list_to_set).
    assert (u ∉ dom (state_names d')) as Hn'
      by (by rewrite Hdom', elem_of_list_to_set).
    apply not_elem_of_dom in Hn, Hn'. by rewrite Hn, Hn'.
Qed.

End names_order_run.

(** ** Instances of [BaseFactor] itself *)

Section bare_instances.
Context {R : Type} `{Scalar R}.


End bare_instances.

(** ** Nothing to sum: one factor over its own scope *)

Lemma flat_map_blocks_inv {A} (f : nat → list A) (p : nat) :
  (∀ j, length (f j) = p) →
  ∀ d start k x, flat_map f (seq start d) !! k = Some x →
    ∃ i r, i < d ∧ r < p ∧ k = i * p + r ∧ f (start + i) !! r = Some x.
Proof.
  intros Hlen. induction d as [|d IH]; intros start k x Hk; [done|].
  simpl in Hk. apply lookup_app_Some in Hk as [Hk|[Hge Hk]].
  - exists 0, k. split; [lia|]. split.
    + rewrite <- (Hlen start). by eapply lookup_lt_Some.
    + split; [lia|]. by rewrite Nat.add_0_r.
  - rewrite Hlen in Hge, Hk.
    destruct (IH (S start) (k - p) x Hk) as (i & r & Hi & Hr & Hkp & Hx).
    exists (S i), r. split; [lia|]. split; [done|]. split; [simpl; lia|].
    by replace (start + S i) with (S start + i) by lia.
Qed.

(** [np.ndindex] and [np.ravel_multi_index] are inverse to each other. *)
Lemma ndindex_ravel sh : ∀ k idx,
  ndindex sh !! k = Some idx → ravel_multi_index idx sh = k.
Proof.
  induction sh as [|d sh IH]; intros k idx Hk.
  - destruct k; [|done]. by injection Hk as <-.
  - simpl in Hk.
    apply (flat_map_blocks_inv _ (prod_shape sh)) in Hk
      as (i & r & Hi & Hr & -> & Hx).
    2:{ intros j. by rewrite length_fmap, length_ndindex. }
    rewrite list_lookup_fmap in Hx.
    destruct (ndindex sh !! r) as [idx'|] eqn:Hidx'; [|done].
    injection Hx as <-. simpl. by rewrite (IH r idx').
Qed.

Section identity.
Context {R : Type} `{Scalar R}.

Lemma tabulate_nd_get (a : ndarray R) :
  nd_ok a → tabulate (shape a) (nd_get a) = a.
Proof.
  destruct a as [sh cells]. unfold nd_ok, tabulate, nd_get. simpl. intros Hlen.
  f_equal. apply list_eq. intros k. rewrite list_lookup_fmap.
  destruct (ndindex sh !! k) as [idx|] eqn:Hk; simpl.
  - rewrite (ndindex_ravel sh k idx Hk).
    destruct (lookup_lt_is_Some_2 cells k) as [x Hx].
    { rewrite Hlen, <- length_ndindex. by eapply lookup_lt_Some. }
    by rewrite Hx.
  - symmetry. apply lookup_ge_None. rewrite Hlen, <- length_ndindex.
    by apply lookup_ge_None.
Qed.

Lemma cards_consistent_one (d : factor_fields R) :
  factor_ok d → cards_consistent [d].
Proof.
  intros Hok. unfold cards_consistent, card_in.
  change ([d] ≫= card_items) with (card_items d ++ []). rewrite app_nil_r.
  apply Forall_forall. intros [v c] Hin. simpl.
  pose proof (card_of_item d v c Hok Hin) as Hc. unfold card_of in Hc.
  by rewrite Hc.
Qed.

Context `{!ScalarLaws R} `{Backend R} `{!BackendSpec R}.

(** X8.  With one well-formed factor and its own scope as [output_vars]
    there is nothing to sum: [factor_sum_product] returns a new
    [DiscreteFactor] with the variables, the cardinality, the values and
    the state names of the factor, and the factor itself is as it was. *)
Theorem sum_product_of_one_over_its_scope (s : state R) (phi : loc)
    (o : pyobj R) (d : factor_fields R) :
  heap s !! phi = Some o → ob_fields o = Some d → factor_ok d →
  ∃ l s',
    factor_sum_product (variables d) [phi] s = (inr l, s') ∧
    l ≠ phi ∧
    heap s' !! l = Some (PyObj DiscreteFactor (Some d)) ∧
    heap s' !! phi = Some o.
Proof.
  intros Hphi Hd Hok.
  assert (phi < length (heap s)) as Hlt by (by eapply lookup_lt_Some).
  pose proof (cards_consistent_one d Hok) as Hcons.
  assert ([d] ≫= variables = variables d) as Hvars.
  { change ([d] ≫= variables) with (variables d ++ []). by rewrite app_nil_r. }
  destruct (sum_product_returns s (variables d) [phi] [o] [d])
    as (names' & Hnames & Hrun).
  { by repeat constructor. }
  { by repeat constructor. }
  { done. }
  { by constructor. }
  { done. }
  { by apply factor_ok_NoDup. }
  { by rewrite Hvars. }
  assert (card_in [d] <$> variables d = cardinality d) as Hcard.
  { rewrite <- (card_items_fst d), <- (card_items_snd d) by done.
    apply card_in_items. unfold cards_consistent in Hcons.
    change ([d] ≫= card_items) with (card_items d ++ []) in Hcons.
    by rewrite app_nil_r in Hcons. }
  assert (tabulate (cardinality d) (marginal (variables d) [d]) = values d) as Hvals.
  { assert (nd_ok (values d)) as Hnd by (by destruct Hok as (_ & _ & _ & ? & _)).
    etrans; [|exact (tabulate_nd_get (values d) Hnd)].
    rewrite (factor_ok_shape d Hok). apply tabulate_ext. intros idx Hidx.
    rewrite marginal_nothing_hidden by (by rewrite Hvars).
    unfold joint, prod_list. simpl. rewrite s_mul_1_l. unfold factor_at.
    rewrite at_assignment_assignment; [done|by apply factor_ok_NoDup|].
    apply Forall2_length in Hidx. rewrite Hidx. symmetry. by apply factor_ok_length. }
  assert (names' = state_names d) as Hn.
  { apply map_eq. intros u. rewrite Hnames.
    assert (merge_names [d] = state_names d) as ->.
    { unfold merge_names. simpl. by rewrite (right_id_L ∅ (∪)). }
    destruct (decide (u ∈ variables d)) as [?|Hu]; [done|].
    symmetry. apply eq_None_not_Some. intros Hsome.
    by apply (factor_ok_names d u Hok) in Hsome. }
  rewrite Hcard, Hvals, Hn in Hrun.
  eexists _, _. split; [exact Hrun|]. simpl.
  split; [lia|]. split.
  - rewrite lookup_app_r, Nat.sub_diag by lia. simpl. by destruct d.
  - by apply lookup_app_l_Some.
Qed.

End identity.

(** ** The order of the operands of a product *)

Section product_order.
Context {R : Type} `{Scalar R}.
Implicit Types (d : factor_fields R) (ds : list (factor_fields R)).

Lemma product_run (c : string → nat) (s : state R) (a b : loc) (rest : list loc)
    (objs : list (pyobj R)) d0 d1 ds (t : pytype) :
  refs s (a :: b :: rest) objs → have_fields objs (d0 :: d1 :: ds) →
  tp_base_factor t = true → Forall (λ o, ob_type o = t) objs →
  Forall factor_ok (d0 :: d1 :: ds) → Forall (cards_from c) (d0 :: d1 :: ds) →
  ∃ l s' P,
    factor_product (a :: b :: rest) s = (inr l, s') ∧
    heap s `prefix_of` heap s' ∧
    length (heap s) ≤ l ∧
    heap s' !! l = Some (PyObj t (Some P)) ∧
    factor_ok P ∧ cards_from c P ∧
    variables P = scope_union (variables d0) (d1 :: ds) ∧
    ∀ ρ : gmap string nat,
      (∀ v, v ∈ variables P → ∃ k, ρ !! v = Some k ∧ k < c v) →
      factor_at P ρ
      = foldl s_mul (factor_at d0 ρ) ((λ d, factor_at d ρ) <$> d1 :: ds).
Proof.
  intros Hrefs Hds Hbase Hty Hok Hfrom.
  pose proof Hok as Hok'. pose proof Hfrom as Hfrom'.
  apply Forall_cons in Hok' as [Hok0 Hoks].
  apply Forall_cons in Hfrom' as [Hc0 Hcs].
  destruct (reduce_combine c s_mul (d1 :: ds) d0 Hok0 Hc0 Hoks Hcs)
    as (P & HP & HokP & HcP & HvP & Hcell).
  rewrite (factor_product_guarded _ _ _ Hrefs).
  pose proof Hrefs as Hrefs'.
  apply Forall2_cons_inv_l in Hrefs' as (oa & objs1 & Ha & Hrefs1 & ->).
  rewrite (guard_passes _ t); [|done|done|by apply Forall_fmap].
  apply Forall2_cons_inv_l in Hds as (da & ds1 & Hda & Hds1 & [= <- <-]).
  apply Forall_cons in Hty as [Hta Hty].
  unfold py_reduce.
  destruct (run_fold_binary_exact CallMul "*" (factor_combine s_mul) (b :: rest)
              objs1 (d1 :: ds) s a oa d0 P Ha Hda Hrefs1 Hds1 HP)
    as (l & s' & Hrun & Hpre & Hlen & Hcalls & Hlook & Hlast).
  exists l, s', P. split; [exact Hrun|]. split; [done|].
  split; [specialize (Hlast ltac:(done)); simpl in Hlen; lia|].
  split; [by rewrite <- Hta|]. done.
Qed.

Lemma foldl_mul_perm (xs ys : list R) :
  (∀ x y, s_mul x y = s_mul y x) →
  (∀ x y z, s_mul x (s_mul y z) = s_mul (s_mul x y) z) →
  xs ≡ₚ ys → ∀ a, foldl s_mul a xs = foldl s_mul a ys.
Proof.
  intros Hcomm Hassoc. induction 1 as [|x xs ys _ IH|x y xs|xs ys zs _ IH1 _ IH2];
    intros a; simpl.
  - done.
  - apply IH.
  - f_equal. by rewrite <- !Hassoc, (Hcomm y x).
  - by rewrite IH1, IH2.
Qed.

Lemma elem_of_scope_union_cons d0 ds v :
  v ∈ scope_union (variables d0) ds ↔ ∃ d, d ∈ d0 :: ds ∧ v ∈ variables d.
Proof.
  rewrite elem_of_scope_union. split.
  - intros [?|(d & Hd & ?)]; [exists d0 | exists d]; split; try done;
      [by left | by right].
  - intros (d & [->|Hd]%elem_of_cons & Hv); [by left|]. right. by exists d.
Qed.

Context `{!ScalarLaws R}.

(** X9.  When multiplication of cells is commutative and associative,
    the order of the operands of [factor_product] does not matter: for two
    or more well-formed factors of one class with consistent cardinalities,
    given in two orders, both calls return, the two results have the same
    variables up to their order, and at every assignment the same cell. *)
Theorem factor_product_in_any_order (s : state R) (a b a' b' : loc)
    (rest rest' : list loc) (objs objs' : list (pyobj R))
    (d0 d1 d0' d1' : factor_fields R) (ds ds' : list (factor_fields R))
    (t : pytype) :
  (∀ x y : R, s_mul x y = s_mul y x) →
  (∀ x y z : R, s_mul x (s_mul y z) = s_mul (s_mul x y) z) →
  refs s (a :: b :: rest) objs → have_fields objs (d0 :: d1 :: ds) →
  refs s (a' :: b' :: rest') objs' → have_fields objs' (d0' :: d1' :: ds') →
  d0 :: d1 :: ds ≡ₚ d0' :: d1' :: ds' →
  tp_base_factor t = true →
  Forall (λ o, ob_type o = t) objs → Forall (λ o, ob_type o = t) objs' →
  Forall factor_ok (d0 :: d1 :: ds) → cards_consistent (d0 :: d1 :: ds) →
  ∃ l s1 P l' s1' P',
    factor_product (a :: b :: rest) s = (inr l, s1) ∧
    heap s1 !! l = Some (PyObj t (Some P)) ∧
    factor_product (a' :: b' :: rest') s = (inr l', s1') ∧
    heap s1' !! l' = Some (PyObj t (Some P')) ∧
    variables P ≡ₚ variables P' ∧
    ∀ idx, in_bounds idx (cardinality P) →
      nd_get (values P) idx = factor_at P' (assignment (variables P) idx).
Proof.
  intros Hcomm Hassoc Hrefs Hds Hrefs' Hds' Hperm Hbase Hty Hty' Hok Hcons.
  pose proof (cards_from_consistent _ Hok Hcons) as Hfrom.
  set (c := card_in (d0 :: d1 :: ds)) in *.
  assert (Forall factor_ok (d0' :: d1' :: ds')) as Hok' by (by rewrite <- Hperm).
  assert (Forall (cards_from c) (d0' :: d1' :: ds')) as Hfrom'
    by (by rewrite <- Hperm).
  destruct (product_run c s a b rest objs d0 d1 ds t)
    as (l & s1 & P & Hrun & _ & _ & Hlook & HokP & HcP & HvP & Hcell); [done..|].
  destruct (product_run c s a' b' rest' objs' d0' d1' ds' t)
    as (l' & s1' & P' & Hrun' & _ & _ & Hlook' & HokP' & HcP' & HvP' & Hcell');
    [done..|].
  assert (∀ v, v ∈ variables P ↔ v ∈ variables P') as Hsame.
  { intros v. rewrite HvP, HvP', !elem_of_scope_union_cons.
    split; intros (d & Hd & Hv); exists d; (split; [|done]).
    - by rewrite <- Hperm.
    - by rewrite Hperm. }
  exists l, s1, P, l', s1', P'.
  split; [done|]. split; [done|]. split; [done|]. split; [done|].
  split.
  { apply NoDup_Permutation; [by apply factor_ok_NoDup..|done]. }
  intros idx Hidx.
  pose proof (factor_ok_NoDup _ HokP) as Hnd.
  assert (length (variables P) = length idx) as Hlen.
  { apply Forall2_length in Hidx. rewrite Hidx. symmetry. by apply factor_ok_length. }
  assert (∀ v, v ∈ variables P →
            ∃ k, assignment (variables P) idx !! v = Some k ∧ k < c v) as Hρ.
  { apply assignment_bounded; [done|]. by rewrite <- HcP. }
  rewrite <- (at_assignment_assignment (variables P) idx) at 1 by done.
  fold (factor_at P (assignment (variables P) idx)).
  rewrite (Hcell _ Hρ), Hcell'.
  2:{ intros v Hv. by apply Hρ, Hsame. }
  set (ρ := assignment (variables P) idx).
  transitivity (foldl s_mul s_one ((λ d, factor_at d ρ) <$> d0 :: d1 :: ds)).
  { rewrite fmap_cons. simpl. by rewrite s_mul_1_l. }
  transitivity (foldl s_mul s_one ((λ d, factor_at d ρ) <$> d0' :: d1' :: ds')).
  { apply foldl_mul_perm; [done..|]. by apply fmap_Permutation. }
  rewrite (fmap_cons _ d0'). simpl. by rewrite s_mul_1_l.
Qed.

End product_order.

(** ** Dividing a product by one of its operands *)

Section divide_product.
Context {R : Type} `{Scalar R}.
Implicit Types (d : factor_fields R).

Lemma nd_get_elem (a : ndarray R) (idx : list nat) :
  nd_ok a → in_bounds idx (shape a) → nd_get a idx ∈ data a.
Proof.
  intros Hok Hb. unfold nd_get.
  destruct (lookup_lt_is_Some_2 (data a) (ravel_multi_index idx (shape a)))
    as [x Hx].
  { rewrite Hok. by apply ravel_lt. }
  rewrite Hx. simpl. by eapply list_elem_of_lookup_2.
Qed.

(** X10.  Division undoes the product: for two well-formed factors of one
    class, the scope of the second within the scope of the first, the same
    cardinalities on it and no zero cell in the second, and cells for which
    [(x * y) / y = x] when [y] is not zero, [factor_divide] applied to
    [factor_product(phi1, phi2)] and [phi2] returns a factor with the
    variables, the cardinality and the values of [phi1]. *)
Theorem divide_undoes_product (s : state R) (a b : loc) (o1 o2 : pyobj R)
    (d1 d2 : factor_fields R) :
  (∀ x y : R, y ≠ s_zero → s_div (s_mul x y) y = x) →
  heap s !! a = Some o1 → heap s !! b = Some o2 →
  ob_fields o1 = Some d1 → ob_fields o2 = Some d2 →
  tp_base_factor (ob_type o1) = true → ob_type o2 = ob_type o1 →
  factor_ok d1 → factor_ok d2 → cards_agree d1 d2 →
  variables d2 ⊆ variables d1 →
  (∀ x, x ∈ data (values d2) → x ≠ s_zero) →
  ∃ l s1 l2 s2 q,
    factor_product [a; b] s = (inr l, s1) ∧
    factor_divide l b s1 = (inr l2, s2) ∧
    heap s2 !! l2 = Some (PyObj (ob_type o1) (Some q)) ∧
    variables q = variables d1 ∧
    cardinality q = cardinality d1 ∧
    values q = values d1.
Proof.
  intros Hinv Ha Hb Hd1 Hd2 Hbase Hty Hok1 Hok2 Hagree Hsub Hnz.
  pose proof (cards_agree_consistent d1 d2 Hok1 Hok2 Hagree) as Hcons.
  assert (Forall factor_ok [d1; d2]) as Hok.
  { constructor; [exact Hok1|]. constructor; [exact Hok2|]. constructor. }
  pose proof (cards_from_consistent _ Hok Hcons) as Hfrom.
  set (c := card_in [d1; d2]) in *.
  apply Forall_cons in Hfrom as [Hc1 Hfrom]. apply Forall_cons in Hfrom as [Hc2 _].
  assert (∀ vs, variables d2 ⊆ vs →
            vs ++ filter (λ v, v ∉ vs) (variables d2) = vs) as Hfil.
  { intros vs Hvs. rewrite filter_none, app_nil_r; [done|].
    intros v Hv Hn. by apply Hn, Hvs. }
  (* the product *)
  destruct (factor_combine_defined s_mul d1 d2 Hagree) as [P HP].
  destruct (combine_ok c s_mul d1 d2 P Hok1 Hok2 Hc1 Hc2 HP) as [HokP HcP].
  destruct (combine_scope s_mul d1 d2 P Hok1 Hok2 HP) as (HvP & _).
  rewrite Hfil in HvP by done.
  set (s1 := State (heap s ++ [PyObj (ob_type o1) (Some P)])
                   (calls s ++ [CallMul a b])).
  assert (factor_product [a; b] s = (inr (length (heap s)), s1)) as Hprod.
  { rewrite (factor_product_guarded s [a; b] [o1; o2]) by (by repeat constructor).
    rewrite (guard_passes _ (ob_type o1)) by (done || by repeat constructor).
    unfold py_reduce. simpl. rewrite run_bind. unfold method_mul.
    by rewrite (run_method_binary _ _ _ _ _ _ _ _ _ _ Ha Hb Hd1 Hd2), HP. }
  (* the quotient *)
  assert (heap s1 !! length (heap s) = Some (PyObj (ob_type o1) (Some P))) as Hl.
  { simpl. by rewrite lookup_app_r, Nat.sub_diag by lia. }
  assert (heap s1 !! b = Some o2) as Hb1 by (by apply lookup_app_l_Some).
  destruct (factor_combine_defined s_div P d2 (cards_from_agree c P d2 HcP Hc2))
    as [q Hq].
  destruct (combine_ok c s_div P d2 q HokP Hok2 HcP Hc2 Hq) as [Hokq Hcq].
  destruct (combine_scope s_div P d2 q HokP Hok2 Hq) as (Hvq & _).
  rewrite HvP, Hfil in Hvq by done.
  assert (factor_divide (length (heap s)) b s1
          = (inr (length (heap s1)),
             State (heap s1 ++ [PyObj (ob_type o1) (Some q)])
                   (calls s1 ++ [CallDivide (length (heap s)) b]))) as Hdiv.
  { rewrite (factor_divide_guarded _ _ _ _ _ Hl Hb1).
    rewrite (guard_passes _ (ob_type o1)); [|done|done|].
    2:{ constructor; [done|]. constructor; [done|]. constructor. }
    rewrite (run_method_divide _ _ _ _ _ P d2 Hl Hb1) by done.
    unfold factor_quotient. rewrite decide_True by (by rewrite HvP).
    by rewrite Hq. }
  eexists _, _, _, _, q. split; [exact Hprod|]. split; [exact Hdiv|].
  split; [simpl; by rewrite lookup_app_r, Nat.sub_diag by lia|].
  split; [done|].
  assert (cardinality q = cardinality d1) as Hcardq.
  { unfold cards_from in Hcq, Hc1. by rewrite Hcq, Hc1, Hvq. }
  split; [done|].
  rewrite (combine_values _ _ _ _ Hq), Hcardq.
  assert (nd_ok (values d1)) as Hnd1 by (by destruct Hok1 as (_ & _ & _ & ? & _)).
  etrans; [|exact (tabulate_nd_get (values d1) Hnd1)].
  rewrite (factor_ok_shape d1 Hok1). apply tabulate_ext. intros idx Hidx.
  rewrite Hvq. set (ρ := assignment (variables d1) idx).
  assert (∀ v, v ∈ variables d1 → ∃ k, ρ !! v = Some k ∧ k < c v) as Hρ.
  { apply assignment_bounded; [by apply factor_ok_NoDup|].
    unfold cards_from in Hc1. by rewrite <- Hc1. }
  rewrite (combine_at c s_mul d1 d2 P ρ) by (done || by rewrite HvP).
  rewrite Hinv.
  - unfold factor_at, ρ. rewrite at_assignment_assignment; [done| |].
    + by apply factor_ok_NoDup.
    + apply Forall2_length in Hidx. rewrite Hidx. symmetry.
      by apply factor_ok_length.
  - apply Hnz. unfold factor_at. apply nd_get_elem.
    + by destruct Hok2 as (_ & _ & _ & ? & _).
    + rewrite (factor_ok_shape d2 Hok2). unfold cards_from in Hc2. rewrite Hc2.
      apply at_assignment_bounded. intros v Hv. by apply Hρ, Hsub.
Qed.

End divide_product.

(** ** The log-domain sum and the product *)

Section log_sum_and_product.
Context {R : Type} `{Scalar R}.
Implicit Types (d : factor_fields R) (ds : list (factor_fields R)).

Lemma log_sum_run (c : string → nat) (s : state R) (a b : loc) (rest : list loc)
    (objs : list (pyobj R)) d0 d1 ds (t : pytype) :
  refs s (a :: b :: rest) objs → have_fields objs (d0 :: d1 :: ds) →
  tp_base_factor t = true → Forall (λ o, ob_type o = t) objs →
  Forall factor_ok (d0 :: d1 :: ds) → Forall (cards_from c) (d0 :: d1 :: ds) →
  ∃ l s' L,
    factor_log_sum (a :: b :: rest) s = (inr l, s') ∧
    heap s `prefix_of` heap s' ∧
    heap s' !! l = Some (PyObj t (Some L)) ∧
    factor_ok L ∧ cards_from c L ∧
    variables L = scope_union (variables d0) (d1 :: ds) ∧
    ∀ ρ : gmap string nat,
      (∀ v, v ∈ variables L → ∃ k, ρ !! v = Some k ∧ k < c v) →
      factor_at L ρ
      = foldl s_add (factor_at (log_fields d0) ρ)
          ((λ d, factor_at (log_fields d) ρ) <$> d1 :: ds).
Proof.
  intros Hrefs Hds Hbase Hty Hok Hfrom.
  pose proof Hok as Hok'. pose proof Hfrom as Hfrom'.
  apply Forall_cons in Hok' as [Hok0 Hoks].
  apply Forall_cons in Hfrom' as [Hc0 Hcs].
  destruct (reduce_combine c s_add (log_fields <$> d1 :: ds) (log_fields d0))
    as (L & HL & HokL & HcL & HvL & Hcell).
  { by apply log_fields_ok. }
  { done. }
  { apply Forall_fmap. eapply Forall_impl; [exact Hoks|]. intros ?. apply log_fields_ok. }
  { apply Forall_fmap. eapply Forall_impl; [exact Hcs|]. done. }
  rewrite (factor_log_sum_guarded _ _ _ Hrefs).
  pose proof Hrefs as Hrefs'.
  apply Forall2_cons_inv_l in Hrefs' as (oa & objs1 & Ha & Hrefs1 & ->).
  rewrite (guard_passes _ t); [|done|done|by apply Forall_fmap].
  rewrite run_bind, (run_logs _ _ _ _ Hrefs Hds).
  set (n := length (heap s)).
  set (logs := (λ d, PyObj t (Some (log_fields d))) <$> d0 :: d1 :: ds).
  assert (zip_with (λ o d, PyObj (ob_type o) (Some (log_fields d)))
            (oa :: objs1) (d0 :: d1 :: ds) = logs) as ->.
  { unfold logs. clear -Hds Hty.
    induction Hds as [|o e os' es' _ _ IH]; [done|].
    apply Forall_cons in Hty as [Hto Hty]. simpl. by rewrite Hto, IH. }
  change (seq n (length (a :: b :: rest)))
    with (n :: seq (S n) (length (b :: rest))).
  cbv beta iota. unfold py_reduce.
  set (s1 := State (heap s ++ logs) (calls s ++ (CallLog <$> a :: b :: rest))).
  assert (length ds = length rest) as Hlen.
  { apply Forall2_length in Hrefs, Hds. simpl in *. lia. }
  destruct (run_fold_binary_exact CallAdd "+" (factor_combine s_add)
              (seq (S n) (length (b :: rest)))
              (tail logs) (log_fields <$> d1 :: ds) s1 n
              (PyObj t (Some (log_fields d0))) (log_fields d0) L)
    as (l & s' & Hrun & Hpre & _ & _ & Hlook & _).
  - simpl. by rewrite lookup_app_r, Nat.sub_diag by lia.
  - done.
  - unfold s1, logs. simpl.
    pose proof (refs_seq (heap s ++ [PyObj t (Some (log_fields d0))])
                  (calls s ++ CallLog a :: CallLog b :: (CallLog <$> rest))
                  (PyObj t (Some (log_fields d1))
                   :: ((λ d, PyObj t (Some (log_fields d))) <$> ds))) as Hseq.
    rewrite length_app in Hseq. simpl in Hseq.
    rewrite Nat.add_1_r, <- app_assoc in Hseq. simpl in Hseq.
    rewrite length_fmap, Hlen in Hseq. done.
  - unfold logs. simpl. constructor; [done|].
    clear. induction ds as [|d ds IH]; by constructor.
  - done.
  - exists l, s', L. split; [exact Hrun|].
    split; [etrans; [|exact Hpre]; by apply prefix_app_r|].
    split; [done|]. split; [done|]. split; [done|]. split.
    + rewrite HvL. clear. simpl.
      generalize (variables d0 ++ filter (λ v, v ∉ variables d0) (variables d1)).
      induction ds as [|d' ds IH]; intros vs; [done|]. simpl. apply IH.
    + intros ρ Hρ. rewrite (Hcell ρ Hρ). by rewrite <- list_fmap_compose.
Qed.

Lemma factor_at_log (c : string → nat) d (ρ : gmap string nat) :
  factor_ok d → cards_from c d →
  (∀ v, v ∈ variables d → ∃ k, ρ !! v = Some k ∧ k < c v) →
  factor_at (log_fields d) ρ = s_log (factor_at d ρ).
Proof.
  intros Hok Hc Hρ. unfold factor_at, nd_get, log_fields. simpl.
  rewrite list_lookup_fmap.
  destruct (lookup_lt_is_Some_2 (data (values d))
              (ravel_multi_index (at_assignment ρ (variables d)) (shape (values d))))
    as [x Hx].
  { destruct Hok as (_ & _ & Hsh & Hnd & _). rewrite Hnd. apply ravel_lt.
    rewrite Hsh, Hc. by apply at_assignment_bounded. }
  by rewrite Hx.
Qed.

Lemma foldl_log (pos : R → Prop) (xs : list R) :
  (∀ x y, pos x → pos y → pos (s_mul x y)) →
  (∀ x y, pos x → pos y → s_log (s_mul x y) = s_add (s_log x) (s_log y)) →
  Forall pos xs →
  ∀ x0, pos x0 → foldl s_add (s_log x0) (s_log <$> xs) = s_log (foldl s_mul x0 xs).
Proof.
  intros Hmul Hlog. induction 1 as [|x xs Hx _ IH]; intros x0 H0; [done|].
  simpl. rewrite <- Hlog by done. apply IH. by apply Hmul.
Qed.

(** X11.  On cells for which the logarithm of a product is the sum of the
    logarithms, as the positive numbers, [factor_log_sum] is the logarithm
    of [factor_product]: for two or more well-formed factors of one class
    with consistent cardinalities and such cells both return, the results
    have the same variables and cardinality, and each cell of the
    log-domain sum is the logarithm of the cell of the product at the same
    index. *)
Theorem log_sum_is_log_of_product (pos : R → Prop) (s : state R) (a b : loc)
    (rest : list loc) (objs : list (pyobj R)) (d0 d1 : factor_fields R)
    (ds : list (factor_fields R)) (t : pytype) :
  (∀ x y : R, pos x → pos y → pos (s_mul x y)) →
  (∀ x y : R, pos x → pos y → s_log (s_mul x y) = s_add (s_log x) (s_log y)) →
  refs s (a :: b :: rest) objs → have_fields objs (d0 :: d1 :: ds) →
  tp_base_factor t = true → Forall (λ o, ob_type o = t) objs →
  Forall factor_ok (d0 :: d1 :: ds) → cards_consistent (d0 :: d1 :: ds) →
  Forall (λ d, Forall pos (data (values d))) (d0 :: d1 :: ds) →
  ∃ l s1 L l' s1' P,
    factor_log_sum (a :: b :: rest) s = (inr l, s1) ∧
    heap s1 !! l = Some (PyObj t (Some L)) ∧
    factor_product (a :: b :: rest) s = (inr l', s1') ∧
    heap s1' !! l' = Some (PyObj t (Some P)) ∧
    variables L = variables P ∧
    cardinality L = cardinality P ∧
    ∀ idx, in_bounds idx (cardinality P) →
      nd_get (values L) idx = s_log (nd_get (values P) idx).
Proof.
  intros Hmul Hlog Hrefs Hds Hbase Hty Hok Hcons Hpos.
  pose proof (cards_from_consistent _ Hok Hcons) as Hfrom.
  set (c := card_in (d0 :: d1 :: ds)) in *.
  destruct (log_sum_run c s a b rest objs d0 d1 ds t)
    as (l & s1 & L & Hrun & _ & Hlook & HokL & HcL & HvL & HcellL); [done..|].
  destruct (product_run c s a b rest objs d0 d1 ds t)
    as (l' & s1' & P & Hrun' & _ & _ & Hlook' & HokP & HcP & HvP & HcellP);
    [done..|].
  exists l, s1, L, l', s1', P.
  split; [done|]. split; [done|]. split; [done|]. split; [done|].
  assert (variables L = variables P) as Hv by (by rewrite HvL, HvP).
  split; [done|].
  assert (cardinality L = cardinality P) as Hc.
  { unfold cards_from in HcL, HcP. by rewrite HcL, HcP, Hv. }
  split; [done|].
  intros idx Hidx.
  pose proof (factor_ok_NoDup _ HokP) as Hnd.
  assert (length (variables P) = length idx) as Hlen.
  { apply Forall2_length in Hidx. rewrite Hidx. symmetry. by apply factor_ok_length. }
  set (ρ := assignment (variables P) idx).
  assert (∀ v, v ∈ variables P → ∃ k, ρ !! v = Some k ∧ k < c v) as Hρ.
  { apply assignment_bounded; [done|]. unfold cards_from in HcP. by rewrite <- HcP. }
  assert (nd_get (values P) idx = factor_at P ρ) as ->.
  { unfold factor_at, ρ. by rewrite at_assignment_assignment. }
  assert (nd_get (values L) idx = factor_at L ρ) as ->.
  { unfold factor_at, ρ. by rewrite Hv, at_assignment_assignment. }
  rewrite HcellL by (by rewrite Hv). rewrite (HcellP ρ Hρ).
  assert (∀ d, d ∈ d0 :: d1 :: ds →
            (∀ v, v ∈ variables d → ∃ k, ρ !! v = Some k ∧ k < c v)) as Hρd.
  { intros d Hd v Hvd. apply Hρ. rewrite HvP. apply elem_of_scope_union_cons.
    by exists d. }
  rewrite Forall_forall in Hok, Hfrom, Hpos.
  assert (∀ d, d ∈ d0 :: d1 :: ds →
            factor_at (log_fields d) ρ = s_log (factor_at d ρ)) as Hat.
  { intros d Hd. apply (factor_at_log c); [by apply Hok | by apply Hfrom |].
    by apply Hρd. }
  assert (∀ d, d ∈ d0 :: d1 :: ds → pos (factor_at d ρ)) as Hposat.
  { intros d Hd. specialize (Hpos d Hd). rewrite Forall_forall in Hpos.
    apply Hpos. unfold factor_at. apply nd_get_elem.
    - by destruct (Hok d Hd) as (_ & _ & _ & ? & _).
    - rewrite (factor_ok_shape d (Hok d Hd)).
      pose proof (Hfrom d Hd) as Hcd. unfold cards_from in Hcd. rewrite Hcd.
      apply at_assignment_bounded. by apply Hρd. }
  rewrite (Hat d0) by (by left).
  rewrite <- (foldl_log pos _ Hmul Hlog).
  - f_equal. rewrite <- list_fmap_compose. apply list_fmap_ext.
    intros i d Hd. apply Hat. right. by eapply list_elem_of_lookup_2.
  - apply Forall_fmap, Forall_forall. intros d Hd. apply Hposat. by right.
  - apply Hposat. by left.
Qed.

End log_sum_and_product.

(** ** The further properties at work on the small store *)

Lemma factor_product_folds_left_witness :
  factor_product [0; 2; 2] store
  = match factor_product [0; 2] store with
    | (inr l, s1) => factor_product [l; 2] s1
    | (inl e, s1) => (inl e, s1)
    end.
Proof.
  apply (factor_product_folds_left store 0 2 [2]
           [PyObj DiscreteFactor (Some phi_AB); PyObj DiscreteFactor (Some phi_B');
            PyObj DiscreteFactor (Some phi_B')] DiscreteFactor).
  - discriminate.
  - by repeat constructor.
  - reflexivity.
  - by repeat constructor.
Defined.

Lemma factor_product_of_several_witness :
  ∃ l s' P,
    factor_product [0; 2; 2] store = (inr l, s') ∧
    calls s' = [CallMul 0 2; CallMul 6 2] ∧
    heap s' !! l = Some (PyObj DiscreteFactor (Some P)) ∧
    variables P = ["A"; "B"] ∧
    cardinality P = [2; 3].
Proof.
  destruct (factor_product_of_several store 0 2 [2]
              [PyObj DiscreteFactor (Some phi_AB); PyObj DiscreteFactor (Some phi_B');
               PyObj DiscreteFactor (Some phi_B')]
              phi_AB phi_B' [phi_B'] DiscreteFactor)
    as (l & s' & P & Hrun & _ & _ & _ & Hcalls & Hlook & _ & Hv & Hc & _).
  - by repeat constructor.
  - by repeat constructor.
  - reflexivity.
  - by repeat constructor.
  - constructor; [compute_done|]. constructor; [compute_done|].
    constructor; [compute_done | constructor].
  - unfold cards_consistent. compute_done.
  - exists l, s', P. split; [exact Hrun|]. split; [exact Hcalls|].
    split; [exact Hlook|]. split; [exact Hv|]. rewrite Hc, Hv. reflexivity.
Defined.

Lemma factor_sum_product_effects_witness :
  ∃ r s',
    factor_sum_product ["A"] [0] store = (r, s') ∧
    calls s' = [CallContract].
Proof.
  destruct (factor_sum_product_effects store ["A"] [0]
              [PyObj DiscreteFactor (Some phi_AB)] [phi_AB])
    as (r & s' & Hrun & Hcalls & _).
  - by repeat constructor.
  - by repeat constructor.
  - exists r, s'. split; [exact Hrun | exact Hcalls].
Defined.

Lemma factor_sum_product_without_attributes_witness :
  factor_sum_product ["A"] [0; 5] store
  = (inl (AttributeError "state_names"), store).
Proof.
  apply (factor_sum_product_without_attributes store ["A"] [0; 5]
           [PyObj DiscreteFactor (Some phi_AB); PyObj (PyType "NoneType" false) None]).
  - by repeat constructor.
  - apply Exists_cons_tl, Exists_cons_hd. reflexivity.
Defined.

Lemma first_unknown_variable_is_named_witness :
  factor_sum_product (H0 := lenient_contract) ["A"; "C"; "D"] [0] store
  = (inl (KeyError "C"), State (heap store) [CallContract]).
Proof.
  eapply (first_unknown_variable_is_named (H0 := lenient_contract)
            store ["A"] "C" ["D"] [0]
            [PyObj DiscreteFactor (Some phi_AB)] [phi_AB]).
  - by repeat constructor.
  - by repeat constructor.
  - intros u Hu. apply list_elem_of_singleton in Hu as ->.
    exists phi_AB. split; [by left|]. exists ["a0"; "a1"]. reflexivity.
  - intros d Hd. apply list_elem_of_singleton in Hd as ->. reflexivity.
  - vm_compute. reflexivity.
Defined.

Lemma state_names_do_not_depend_on_order_witness :
  ∃ l s1 l' s1' d d',
    factor_sum_product ["A"; "B"] [0; 2] store = (inr l, s1) ∧
    factor_sum_product ["A"; "B"] [2; 0] store = (inr l', s1') ∧
    heap s1 !! l = Some (PyObj DiscreteFactor (Some d)) ∧
    heap s1' !! l' = Some (PyObj DiscreteFactor (Some d')) ∧
    state_names d = state_names d'.
Proof.
  assert (∃ l s1, factor_sum_product ["A"; "B"] [0; 2] store = (inr l, s1))
    as (l & s1 & Hrun) by (eexists _, _; vm_compute; reflexivity).
  assert (∃ l' s1', factor_sum_product ["A"; "B"] [2; 0] store = (inr l', s1'))
    as (l' & s1' & Hrun') by (eexists _, _; vm_compute; reflexivity).
  destruct (state_names_do_not_depend_on_order store s1 s1' ["A"; "B"]
              [0; 2] [2; 0]
              [PyObj DiscreteFactor (Some phi_AB); PyObj DiscreteFactor (Some phi_B')]
              [PyObj DiscreteFactor (Some phi_B'); PyObj DiscreteFactor (Some phi_AB)]
              [phi_AB; phi_B'] [phi_B'; phi_AB] l l')
    as (d & d' & Hd & Hd' & Hnames).
  - by repeat constructor.
  - by repeat constructor.
  - by repeat constructor.
  - by repeat constructor.
  - apply Permutation_swap.
  - assert (∀ d v ns, d ∈ [phi_AB; phi_B'] → state_names d !! v = Some ns →
              state_names phi_AB !! v = Some ns) as Hsub.
    { intros d v ns Hd Hns. apply elem_of_cons in Hd as [->|Hd]; [done|].
      apply list_elem_of_singleton in Hd as ->.
      change (state_names phi_B')
        with (<["B" := ["b0"; "b1"; "b2"]]> (∅ : gmap string (list string))) in Hns.
      apply lookup_insert_Some in Hns as [[<- <-]|[_ Hns]]; [reflexivity|].
      by rewrite lookup_empty in Hns. }
    intros d1 d2 v ns1 ns2 H1 H2 Hn1 Hn2.
    apply (Hsub d1 v ns1 H1) in Hn1. apply (Hsub d2 v ns2 H2) in Hn2. congruence.
  - exact Hrun.
  - exact Hrun'.
  - exists l, s1, l', s1', d, d'. split; [exact Hrun|]. split; [exact Hrun'|].
    split; [exact Hd|]. split; [exact Hd' | exact Hnames].
Defined.


Lemma sum_product_of_one_over_its_scope_witness :
  ∃ l s',
    factor_sum_product ["A"; "B"] [0] store = (inr l, s') ∧
    l ≠ 0 ∧
    heap s' !! l = Some (PyObj DiscreteFactor (Some phi_AB)).
Proof.
  destruct (sum_product_of_one_over_its_scope store 0
              (PyObj DiscreteFactor (Some phi_AB)) phi_AB)
    as (l & s' & Hrun & Hne & Hnew & _).
  - reflexivity.
  - reflexivity.
  - compute_done.
  - exists l, s'. split; [exact Hrun|]. split; [exact Hne | exact Hnew].
Defined.

Lemma factor_product_in_any_order_witness :
  ∃ l s1 P l' s1' P',
    factor_product [0; 2] store = (inr l, s1) ∧
    heap s1 !! l = Some (PyObj DiscreteFactor (Some P)) ∧
    factor_product [2; 0] store = (inr l', s1') ∧
    heap s1' !! l' = Some (PyObj DiscreteFactor (Some P')) ∧
    variables P ≡ₚ variables P'.
Proof.
  destruct (factor_product_in_any_order store 0 2 2 0 [] []
              [PyObj DiscreteFactor (Some phi_AB); PyObj DiscreteFactor (Some phi_B')]
              [PyObj DiscreteFactor (Some phi_B'); PyObj DiscreteFactor (Some phi_AB)]
              phi_AB phi_B' phi_B' phi_AB [] [] DiscreteFactor)
    as (l & s1 & P & l' & s1' & P' & Hrun & Hl & Hrun' & Hl' & Hperm & _).
  - exact Z.mul_comm.
  - exact Z.mul_assoc.
  - by repeat constructor.
  - by repeat constructor.
  - by repeat constructor.
  - by repeat constructor.
  - apply Permutation_swap.
  - reflexivity.
  - by repeat constructor.
  - by repeat constructor.
  - constructor; [compute_done|]. constructor; [compute_done | constructor].
  - unfold cards_consistent. compute_done.
  - exists l, s1, P, l', s1', P'. split; [exact Hrun|]. split; [exact Hl|].
    split; [exact Hrun'|]. split; [exact Hl' | exact Hperm].
Defined.

Lemma divide_undoes_product_witness :
  ∃ l s1 l2 s2 q,
    factor_product [0; 2] store = (inr l, s1) ∧
    factor_divide l 2 s1 = (inr l2, s2) ∧
    heap s2 !! l2 = Some (PyObj DiscreteFactor (Some q)) ∧
    values q = NDArray [2; 3] [1; 2; 3; 4; 5; 6]%Z.
Proof.
  destruct (divide_undoes_product store 0 2
              (PyObj DiscreteFactor (Some phi_AB)) (PyObj DiscreteFactor (Some phi_B'))
              phi_AB phi_B')
    as (l & s1 & l2 & s2 & q & Hrun & Hdiv & Hl & _ & _ & Hvals).
  - intros x y Hy. by apply Z.div_mul.
  - reflexivity.
  - reflexivity.
  - reflexivity.
  - reflexivity.
  - reflexivity.
  - reflexivity.
  - compute_done.
  - compute_done.
  - unfold cards_agree. compute_done.
  - intros v Hv. apply list_elem_of_singleton in Hv as ->. right. left.
  - apply Forall_forall. compute_done.
  - exists l, s1, l2, s2, q. split; [exact Hrun|]. split; [exact Hdiv|].
    split; [exact Hl | exact Hvals].
Defined.

Lemma log_sum_is_log_of_product_witness :
  ∃ l s1 L l' s1' P,
    factor_log_sum [2; 2] store = (inr l, s1) ∧
    heap s1 !! l = Some (PyObj DiscreteFactor (Some L)) ∧
    factor_product [2; 2] store = (inr l', s1') ∧
    heap s1' !! l' = Some (PyObj DiscreteFactor (Some P)) ∧
    variables L = variables P ∧
    cardinality L = cardinality P.
Proof.
  destruct (log_sum_is_log_of_product (λ x : Z, ∃ n : nat, x = (2 ^ Z.of_nat n)%Z)
              store 2 2 []
              [PyObj DiscreteFactor (Some phi_B'); PyObj DiscreteFactor (Some phi_B')]
              phi_B' phi_B' [] DiscreteFactor)
    as (l & s1 & L & l' & s1' & P & Hrun & Hl & Hrun' & Hl' & Hv & Hc & _).
  - intros x y [n ->] [m ->]. exists (n + m).
    rewrite Nat2Z.inj_add, Z.pow_add_r by lia. reflexivity.
  - intros x y [n ->] [m ->]. simpl.
    rewrite <- Z.pow_add_r by lia. rewrite !Z.log2_pow2 by lia. reflexivity.
  - by repeat constructor.
  - by repeat constructor.
  - reflexivity.
  - by repeat constructor.
  - constructor; [compute_done|]. constructor; [compute_done | constructor].
  - unfold cards_consistent. compute_done.
  - assert (Forall (λ x : Z, ∃ n : nat, x = (2 ^ Z.of_nat n)%Z)
              (data (values phi_B'))) as Hpos.
    { constructor; [by exists 0|]. constructor; [by exists 0|].
      constructor; [by exists 1 | constructor]. }
    constructor; [exact Hpos|]. constructor; [exact Hpos | constructor].
  - exists l, s1, L, l', s1', P. split; [exact Hrun|]. split; [exact Hl|].
    split; [exact Hrun'|]. split; [exact Hl'|]. split; [exact Hv | exact Hc].
Defined.
